(** * Parking garage (Design.cpp): shallow embedding and verified properties

    The C++ classes [Machine], [Slot], [Level] and [Garage] are embedded as
    records and pure functions with explicit state passing.  A C++ [int] is
    a [Z]; no arithmetic of the program can overflow (every counter is
    bounded by the size of a vector built from an [int]).  [vector::operator[]]
    outside the vector is undefined behaviour in C++: the indexed accesses
    return [None] there, so that the operations of [Level] and [Garage] that
    index a vector return an [option].  The text printed on [cout] is not
    modelled; the mutex is a no-op for the sequential command loop. *)

From stdpp Require Import gmap strings list fin_maps.

Open Scope Z_scope.

(** ** Machine *)

Inductive MachineKind := Bike | Car | Truck.

Record Machine := mkMachine { identifier : string; kind : MachineKind }.

(** [Machine::slotsNeeded]. *)
Definition slotsNeeded (machine : Machine) : Z :=
  match kind machine with
  | Truck => 2
  | _ => 1
  end.

(** The branch of [main] that reads the kind of an [add_machine] command. *)
Definition parseKind (kindStr : string) : MachineKind :=
  if String.eqb kindStr "Bike" then Bike
  else if String.eqb kindStr "Car" then Car
  else Truck.

(** ** Slot *)

Record Slot := mkSlot {
  slot_levelIndex : Z;
  slotIndex : Z;
  isOccupied : bool;
  occupantId : string
}.

(** [Slot::Slot(level, index)]: the occupant is the empty string. *)
Definition newSlot (level index : Z) : Slot := mkSlot level index false "".

(** [Slot::occupySlot]. *)
Definition occupySlot (s : Slot) (machineId : string) : bool * Slot :=
  if isOccupied s then (false, s)
  else (true, mkSlot (slot_levelIndex s) (slotIndex s) true machineId).

(** [Slot::vacateSlot]. *)
Definition vacateSlot (s : Slot) : bool * Slot :=
  if negb (isOccupied s) then (false, s)
  else (true, mkSlot (slot_levelIndex s) (slotIndex s) false "").

(** ** Level *)

Record Level := mkLevel { levelIndex : Z; slotList : list Slot }.

(** [Level::Level(index, totalSlots)]: the loop runs for [0 <= i < totalSlots],
    not at all when [totalSlots] is not positive. *)
Definition newLevel (index totalSlots : Z) : Level :=
  mkLevel index ((λ i : nat, newSlot index (Z.of_nat i)) <$> seq 0 (Z.to_nat totalSlots)).

(** The loop of [spotsAvailable] for one slot: the first free slot. *)
Fixpoint firstFree (sl : list Slot) : list Z :=
  match sl with
  | [] => []
  | s :: rest => if negb (isOccupied s) then [slotIndex s] else firstFree rest
  end.

(** The loop of [spotsAvailable] for two slots: [i] runs while [i + 1] is
    inside the vector and looks at the slots [i] and [i + 1]. *)
Fixpoint firstFreePair (sl : list Slot) : list Z :=
  match sl with
  | a :: ((b :: _) as rest) =>
      if negb (isOccupied a) && negb (isOccupied b)
      then [slotIndex a; slotIndex b]
      else firstFreePair rest
  | _ => []
  end.

(** [Level::spotsAvailable]. *)
Definition spotsAvailable (lvl : Level) (machine : Machine) : list Z :=
  if slotsNeeded machine =? 1 then firstFree (slotList lvl)
  else firstFreePair (slotList lvl).

(** [slotList[idx]] for an [int] index: undefined outside the vector. *)
Definition slotAt (sl : list Slot) (idx : Z) : option Slot :=
  if idx <? 0 then None else sl !! Z.to_nat idx.

(** First loop of [assignMachine]: stops with [false] at the first occupied
    slot. *)
Fixpoint allFree (sl : list Slot) (slotsToUse : list Z) : option bool :=
  match slotsToUse with
  | [] => Some true
  | idx :: rest =>
      s ← slotAt sl idx;
      if isOccupied s then Some false else allFree sl rest
  end.

(** Second loop of [assignMachine]: the result of [occupySlot] is dropped. *)
Fixpoint occupyAll (sl : list Slot) (machineId : string) (slotsToUse : list Z)
  : option (list Slot) :=
  match slotsToUse with
  | [] => Some sl
  | idx :: rest =>
      s ← slotAt sl idx;
      occupyAll (<[Z.to_nat idx := (occupySlot s machineId).2]> sl) machineId rest
  end.

(** [Level::assignMachine]. *)
Definition assignMachine (lvl : Level) (machine : Machine) (slotsToUse : list Z)
  : option (bool * Level) :=
  free ← allFree (slotList lvl) slotsToUse;
  if free : bool then
    sl' ← occupyAll (slotList lvl) (identifier machine) slotsToUse;
    Some (true, mkLevel (levelIndex lvl) sl')
  else Some (false, lvl).

(** The loop of [removeMachine]: every slot occupied by [machineId] is
    vacated, the flag records whether one was. *)
Fixpoint removeSlots (sl : list Slot) (machineId : string) (removed : bool)
  : bool * list Slot :=
  match sl with
  | [] => (removed, [])
  | s :: rest =>
      if isOccupied s && bool_decide (occupantId s = machineId)
      then let '(r, rest') := removeSlots rest machineId true in
           (r, (vacateSlot s).2 :: rest')
      else let '(r, rest') := removeSlots rest machineId removed in
           (r, s :: rest')
  end.

(** [Level::removeMachine]. *)
Definition removeMachine (lvl : Level) (machineId : string) : bool * Level :=
  let '(removed, sl') := removeSlots (slotList lvl) machineId false in
  (removed, mkLevel (levelIndex lvl) sl').

(** [Level::freeSlotsCount]. *)
Definition freeSlotsCount (lvl : Level) : Z :=
  fold_left (λ count s, if negb (isOccupied s) then count + 1 else count)
            (slotList lvl) 0.

(** ** Garage *)

Record Garage := mkGarage {
  levels : list Level;
  machineLocations : gmap string (Z * list Z);
  machineCatalog : gmap string Machine
}.

(** [Garage::Garage(totalLevels, slotsEach)]. *)
Definition newGarage (totalLevels slotsEach : Z) : Garage :=
  mkGarage ((λ i : nat, newLevel (Z.of_nat i) slotsEach) <$> seq 0 (Z.to_nat totalLevels))
           ∅ ∅.

(** The loop of [storeMachine] over the levels: the levels after the loop and,
    when a level took the machine, the location that is recorded. *)
Fixpoint storeLoop (ls : list Level) (machine : Machine)
  : option (option (Z * list Z) * list Level) :=
  match ls with
  | [] => Some (None, [])
  | lvl :: rest =>
      let slotIndices := spotsAvailable lvl machine in
      match slotIndices with
      | [] => '(found, rest') ← storeLoop rest machine; Some (found, lvl :: rest')
      | _ :: _ =>
          '(ok, lvl') ← assignMachine lvl machine slotIndices;
          if ok : bool then Some (Some (levelIndex lvl', slotIndices), lvl' :: rest)
          else '(found, rest') ← storeLoop rest machine; Some (found, lvl' :: rest')
      end
  end.

(** [Garage::storeMachine]. *)
Definition storeMachine (g : Garage) (machine : Machine) : option (bool * Garage) :=
  match machineLocations g !! identifier machine with
  | Some _ => Some (false, g)
  | None =>
      '(found, ls') ← storeLoop (levels g) machine;
      match found with
      | Some location =>
          Some (true, mkGarage ls'
                        (<[identifier machine := location]> (machineLocations g))
                        (<[identifier machine := machine]> (machineCatalog g)))
      | None => Some (false, mkGarage ls' (machineLocations g) (machineCatalog g))
      end
  end.

(** [levels[whichLevel]] for an [int] index. *)
Definition levelAt (ls : list Level) (idx : Z) : option Level :=
  if idx <? 0 then None else ls !! Z.to_nat idx.

(** [Garage::unparkMachine]. *)
Definition unparkMachine (g : Garage) (machineId : string) : option (bool * Garage) :=
  match machineLocations g !! machineId with
  | None => Some (false, g)
  | Some (whichLevel, _) =>
      lvl ← levelAt (levels g) whichLevel;
      let '(removed, lvl') := removeMachine lvl machineId in
      let ls' := <[Z.to_nat whichLevel := lvl']> (levels g) in
      if removed : bool then
        Some (true, mkGarage ls' (delete machineId (machineLocations g))
                             (delete machineId (machineCatalog g)))
      else Some (false, mkGarage ls' (machineLocations g) (machineCatalog g))
  end.

(** ** The queries of the garage *)

(** [kindToString]; the [default] branch of the switch is for no kind. *)
Definition kindToString (kind : MachineKind) : string :=
  match kind with
  | Bike => "Bike"
  | Car => "Car"
  | Truck => "Truck"
  end.

(** [Machine::Machine()]. *)
Definition defaultMachine : Machine := mkMachine "" Bike.

(** [Garage::checkAvailability]: one printed line per level, as the level
    index and the number of free slots of the line. *)
Definition checkAvailability (g : Garage) : list (Z * Z) :=
  (λ lvl, (levelIndex lvl, freeSlotsCount lvl)) <$> levels g.

(** The loop of [checkIfFull]: stops at the first level with a free slot. *)
Fixpoint hasSpace (ls : list Level) : bool :=
  match ls with
  | [] => false
  | lvl :: rest => if 0 <? freeSlotsCount lvl then true else hasSpace rest
  end.

(** [Garage::checkIfFull]: [true] stands for the line "The garage is
    completely full.", [false] for "The garage still has space available.". *)
Definition checkIfFull (g : Garage) : bool := negb (hasSpace (levels g)).

(** [Garage::locateMachine]: what is printed about the machine (the name of
    its kind, its level and its slots; [None] for "Could not find") and the
    garage afterwards: [machineCatalog[machineId]] adds a default-constructed
    machine when the catalog has none for the identifier. *)
Definition locateMachine (g : Garage) (machineId : string)
  : option (string * Z * list Z) * Garage :=
  match machineLocations g !! machineId with
  | None => (None, g)
  | Some (lvlIndex, slots) =>
      let '(theMachine, catalog') :=
        match machineCatalog g !! machineId with
        | Some machine => (machine, machineCatalog g)
        | None => (defaultMachine, <[machineId := defaultMachine]> (machineCatalog g))
        end in
      (Some (kindToString (kind theMachine), lvlIndex, slots),
       mkGarage (levels g) (machineLocations g) catalog')
  end.

(** ** Sequences of operations *)

Inductive Op := Park (machine : Machine) | Unpark (machineId : string).

Definition step (g : Garage) (op : Op) : option Garage :=
  match op with
  | Park machine => snd <$> storeMachine g machine
  | Unpark machineId => snd <$> unparkMachine g machineId
  end.

Fixpoint run (ops : list Op) (g : Garage) : option Garage :=
  match ops with
  | [] => Some g
  | op :: rest => g' ← step g op; run rest g'
  end.

(** The garages the program can hold: built by the constructor for [L] levels
    of [N] slots and changed by [storeMachine] and [unparkMachine] only (the
    members of [Garage] are private). *)
Definition reachable (L N : nat) (g : Garage) : Prop :=
  ∃ ops, run ops (newGarage (Z.of_nat L) (Z.of_nat N)) = Some g.

(** ** Vocabulary of the properties *)

(** The slot written by [occupySlot] over a free slot. *)
Definition setOccupant (machineId : string) (s : Slot) : Slot :=
  mkSlot (slot_levelIndex s) (slotIndex s) true machineId.

(** The test of the loop of [removeMachine]. *)
Definition ownedBy (machineId : string) (s : Slot) : bool :=
  isOccupied s && bool_decide (occupantId s = machineId).

(** What the loop of [removeMachine] leaves in place of a slot. *)
Definition vacateOwned (machineId : string) (s : Slot) : Slot :=
  if ownedBy machineId s then mkSlot (slot_levelIndex s) (slotIndex s) false "" else s.

Definition isFree (s : Slot) : bool := negb (isOccupied s).

Fixpoint countIf (P : Slot → bool) (sl : list Slot) : Z :=
  match sl with
  | [] => 0
  | s :: rest => (if P s then 1 else 0) + countIf P rest
  end.

(** The slots [j], ..., [j + n - 1] of a level, occupied by [machineId]. *)
Fixpoint markFrom (sl : list Slot) (machineId : string) (j n : nat) : list Slot :=
  match n with
  | O => sl
  | S n' => markFrom (alter (setOccupant machineId) j sl) machineId (S j) n'
  end.

(** The slot indices [j], ..., [j + n - 1]. *)
Definition indexRun (j n : nat) : list Z := Z.of_nat <$> seq j n.

(** The slots at the positions [j], ..., [j + n - 1] exist and are free. *)
Definition freeRun (sl : list Slot) (j n : nat) : Prop :=
  ∀ i, (j ≤ i < j + n)%nat → ∃ s, sl !! i = Some s ∧ isOccupied s = false.

(** The slots at the positions [j], ..., [j + n - 1] exist and are occupied
    by [machineId]. *)
Definition ownedRun (sl : list Slot) (machineId : string) (j n : nat) : Prop :=
  ∀ i, (j ≤ i < j + n)%nat →
       ∃ s, sl !! i = Some s ∧ isOccupied s = true ∧ occupantId s = machineId.

(** Number of slots of a machine, as a count. *)
Definition slotCount (machine : Machine) : nat := Z.to_nat (slotsNeeded machine).

(** Slot [j] of level [k]. *)
Definition slotOf (ls : list Level) (k j : nat) : option Slot :=
  lvl ← ls !! k; slotList lvl !! j.

(** Every slot carries its own position, as the constructors set it. *)
Definition indexed (sl : list Slot) : Prop :=
  ∀ j s, sl !! j = Some s → slotIndex s = Z.of_nat j.

(** Sum of [freeSlotsCount] over the levels. *)
Definition totalFree (g : Garage) : Z :=
  foldr (λ lvl acc, freeSlotsCount lvl + acc) 0 (levels g).

(** Sum of [slotsNeeded] over the parked machines. *)
Definition parkedSlots (g : Garage) : Z :=
  map_fold (λ _ machine acc, slotsNeeded machine + acc) 0 (machineCatalog g).

(** Shape of the levels of a garage of [L] levels of [N] slots. *)
Record LevelsOk (L N : nat) (ls : list Level) : Prop := {
  lo_length : length ls = L;
  lo_level : ∀ k lvl, ls !! k = Some lvl →
      levelIndex lvl = Z.of_nat k ∧ length (slotList lvl) = N;
  lo_slot : ∀ k lvl j s, ls !! k = Some lvl → slotList lvl !! j = Some s →
      slot_levelIndex s = Z.of_nat k ∧ slotIndex s = Z.of_nat j ∧
      (isOccupied s = false → occupantId s = "")
}.

(** The invariant of the garage. *)
Record GarageInv (L N : nat) (g : Garage) : Prop := {
  gi_levels : LevelsOk L N (levels g);
  gi_catalog : ∀ id machine, machineCatalog g !! id = Some machine →
      is_Some (machineLocations g !! id);
  gi_location : ∀ id whichLevel slotIndices,
      machineLocations g !! id = Some (whichLevel, slotIndices) →
      ∃ machine k j lvl,
        machineCatalog g !! id = Some machine ∧ identifier machine = id ∧
        whichLevel = Z.of_nat k ∧ slotIndices = indexRun j (slotCount machine) ∧
        levels g !! k = Some lvl ∧
        ownedRun (slotList lvl) id j (slotCount machine) ∧
        countIf (ownedBy id) (slotList lvl) = slotsNeeded machine;
  gi_owner : ∀ k j s, slotOf (levels g) k j = Some s → isOccupied s = true →
      ∃ slotIndices,
        machineLocations g !! occupantId s = Some (Z.of_nat k, slotIndices) ∧
        Z.of_nat j ∈ slotIndices;
  gi_total : totalFree g + parkedSlots g = Z.of_nat L * Z.of_nat N
}.

(** No level has a run of [n] free slots. *)
Definition noFit (ls : list Level) (n : nat) : Prop :=
  ∀ k lvl j, ls !! k = Some lvl → ¬ freeRun (slotList lvl) j n.

(** First fit: [k] is the first level with a run of [n] free slots, and [j]
    is where the first such run of level [k] starts. *)
Definition firstFit (ls : list Level) (n k j : nat) (lvl : Level) : Prop :=
  ls !! k = Some lvl ∧ freeRun (slotList lvl) j n ∧
  (∀ i, (i < j)%nat → ¬ freeRun (slotList lvl) i n) ∧
  (∀ k' lvl' j', (k' < k)%nat → ls !! k' = Some lvl' →
                 ¬ freeRun (slotList lvl') j' n).

(** Level [lvl] with the slots [j], ... taken by [machine]. *)
Definition takeSlots (lvl : Level) (machine : Machine) (j : nat) : Level :=
  mkLevel (levelIndex lvl)
          (markFrom (slotList lvl) (identifier machine) j (slotCount machine)).

(** The garage after [machine] was stored on level [k], from slot [j] on. *)
Definition parkAt (g : Garage) (machine : Machine) (k j : nat) (lvl : Level) : Garage :=
  mkGarage (<[k := takeSlots lvl machine j]> (levels g))
           (<[identifier machine := (levelIndex lvl, indexRun j (slotCount machine))]>
              (machineLocations g))
           (<[identifier machine := machine]> (machineCatalog g)).

(** Level [lvl] with the slots of [machineId] vacated. *)
Definition dropSlots (lvl : Level) (machineId : string) : Level :=
  mkLevel (levelIndex lvl) (vacateOwned machineId <$> slotList lvl).

(** The garage after [machineId] was removed from level [k]. *)
Definition unparkAt (g : Garage) (machineId : string) (k : nat) (lvl : Level) : Garage :=
  mkGarage (<[k := dropSlots lvl machineId]> (levels g))
           (delete machineId (machineLocations g))
           (delete machineId (machineCatalog g)).

(** The slots of every level carry their positions. *)
Definition levelsIndexed (ls : list Level) : Prop :=
  ∀ k lvl, ls !! k = Some lvl → indexed (slotList lvl).

(** The location map, the catalog and the slots agree: the same identifiers
    are in the two maps; the slots recorded for an identifier are occupied by
    it; an occupied slot is recorded for its occupant; no slot is recorded
    for two identifiers. *)
Definition locationConsistent (g : Garage) : Prop :=
  (∀ id, is_Some (machineLocations g !! id) ↔ is_Some (machineCatalog g !! id)) ∧
  (∀ id whichLevel slotIndices,
      machineLocations g !! id = Some (whichLevel, slotIndices) →
      slotIndices ≠ [] ∧
      ∀ idx, idx ∈ slotIndices →
             ∃ k j s, whichLevel = Z.of_nat k ∧ idx = Z.of_nat j ∧
                      slotOf (levels g) k j = Some s ∧
                      isOccupied s = true ∧ occupantId s = id) ∧
  (∀ k j s, slotOf (levels g) k j = Some s → isOccupied s = true →
      ∃ slotIndices,
        machineLocations g !! occupantId s = Some (Z.of_nat k, slotIndices) ∧
        Z.of_nat j ∈ slotIndices) ∧
  (∀ id1 id2 whichLevel idxs1 idxs2 idx,
      machineLocations g !! id1 = Some (whichLevel, idxs1) →
      machineLocations g !! id2 = Some (whichLevel, idxs2) →
      idx ∈ idxs1 → idx ∈ idxs2 → id1 = id2).

(** Some level has two free slots next to each other. *)
Definition hasFreePair (g : Garage) : Prop :=
  ∃ k lvl j, levels g !! k = Some lvl ∧ freeRun (slotList lvl) j 2.

(** Every slot of every level is occupied. *)
Definition allOccupied (ls : list Level) : Prop :=
  ∀ k j s, slotOf ls k j = Some s → isOccupied s = true.

(** A slot as the constructor and [vacateSlot] leave it. *)
Definition vacant (s : Slot) : Prop := isOccupied s = false ∧ occupantId s = "".

(** ** Example garages *)

(** The garage built for [totalLevels] and [slotsEach] after the commands
    [ops]. *)
Definition garageAfter (totalLevels slotsEach : Z) (ops : list Op) : Garage :=
  default (newGarage totalLevels slotsEach) (run ops (newGarage totalLevels slotsEach)).

Definition carA1 : Machine := mkMachine "A1" Car.
Definition truckB1 : Machine := mkMachine "B1" Truck.
Definition bikeX : Machine := mkMachine "X" Bike.
Definition bikeY : Machine := mkMachine "Y" Bike.
Definition bikeZ : Machine := mkMachine "Z" Bike.

(** A level of three slots, the first one occupied by "A1". *)
Definition levelA : Level :=
  mkLevel 0 [setOccupant "A1" (newSlot 0 0); newSlot 0 1; newSlot 0 2].

(** ** Slots and counting *)

Lemma occupySlot_free s id :
  isOccupied s = false → occupySlot s id = (true, setOccupant id s).
Proof. intros H. unfold occupySlot. by rewrite H. Qed.

Lemma ownedBy_true id s :
  ownedBy id s = true ↔ isOccupied s = true ∧ occupantId s = id.
Proof.
  unfold ownedBy. rewrite andb_true_iff, bool_decide_eq_true. tauto.
Qed.

Lemma ownedBy_false id s :
  ownedBy id s = false ↔ isOccupied s = false ∨ occupantId s ≠ id.
Proof.
  unfold ownedBy. rewrite andb_false_iff, bool_decide_eq_false. tauto.
Qed.

Lemma countIf_alter P f (sl : list Slot) j s :
  sl !! j = Some s →
  countIf P (alter f j sl) =
    countIf P sl - (if P s then 1 else 0) + (if P (f s) then 1 else 0).
Proof.
  revert j. induction sl as [|a sl IH]; intros [|j] H; simplify_eq/=.
  - lia.
  - rewrite (IH j H). lia.
Qed.

Lemma countIf_bounds P (sl : list Slot) : 0 ≤ countIf P sl ≤ Z.of_nat (length sl).
Proof. induction sl as [|a sl IH]; simpl; [lia|]. destruct (P a); lia. Qed.

Lemma countIf_zero P (sl : list Slot) :
  (∀ s, s ∈ sl → P s = false) → countIf P sl = 0.
Proof.
  induction sl as [|a sl IH]; intros H; simpl; [done|].
  rewrite (H a) by left. rewrite IH; [done|]. intros s Hs. apply H. by right.
Qed.

Lemma fold_left_count (sl : list Slot) c :
  fold_left (λ count s, if negb (isOccupied s) then count + 1 else count) sl c
  = c + countIf isFree sl.
Proof.
  revert c. induction sl as [|a sl IH]; intros c; simpl; [lia|].
  rewrite IH. unfold isFree. destruct (isOccupied a); simpl; lia.
Qed.

Lemma freeSlotsCount_countIf lvl :
  freeSlotsCount lvl = countIf isFree (slotList lvl).
Proof. unfold freeSlotsCount. rewrite fold_left_count. lia. Qed.

(** ** The loop of [removeMachine] *)

Lemma vacateSlot_owned id s :
  ownedBy id s = true → (vacateSlot s).2 = vacateOwned id s.
Proof.
  intros H. unfold vacateOwned. rewrite H.
  apply ownedBy_true in H as [H _]. unfold vacateSlot. by rewrite H.
Qed.

Lemma removeSlots_spec sl id removed :
  removeSlots sl id removed
  = (removed || existsb (ownedBy id) sl, vacateOwned id <$> sl).
Proof.
  revert removed. induction sl as [|s sl IH]; intros removed; simpl.
  - by rewrite orb_false_r.
  - fold (ownedBy id s). destruct (ownedBy id s) eqn:Hs.
    + rewrite IH. simpl. rewrite orb_true_r. f_equal. f_equal.
      by apply vacateSlot_owned.
    + rewrite IH. simpl. f_equal. f_equal. unfold vacateOwned. by rewrite Hs.
Qed.

Lemma removeMachine_spec lvl id :
  removeMachine lvl id
  = (existsb (ownedBy id) (slotList lvl),
     mkLevel (levelIndex lvl) (vacateOwned id <$> slotList lvl)).
Proof. unfold removeMachine. by rewrite removeSlots_spec. Qed.

Lemma existsb_false_countIf P (sl : list Slot) :
  existsb P sl = false ↔ countIf P sl = 0.
Proof.
  induction sl as [|a sl IH]; simpl; [done|].
  pose proof (countIf_bounds P sl). destruct (P a); simpl; [|done].
  split; [done|lia].
Qed.

Lemma countIf_free_vacate id (sl : list Slot) :
  countIf isFree (vacateOwned id <$> sl)
  = countIf isFree sl + countIf (ownedBy id) sl.
Proof.
  induction sl as [|a sl IH]; [done|]. rewrite fmap_cons. cbn [countIf].
  rewrite IH. unfold vacateOwned. destruct (ownedBy id a) eqn:Ha; simpl.
  - apply ownedBy_true in Ha as [Ha _]. unfold isFree. rewrite Ha. simpl. lia.
  - lia.
Qed.

Lemma countIf_owned_vacate id id' (sl : list Slot) :
  id ≠ id' →
  countIf (ownedBy id') (vacateOwned id <$> sl) = countIf (ownedBy id') sl.
Proof.
  intros Hne. induction sl as [|a sl IH]; [done|].
  rewrite fmap_cons. cbn [countIf]. rewrite IH. f_equal.
  unfold vacateOwned. destruct (ownedBy id a) eqn:Ha; [|done].
  apply ownedBy_true in Ha as [Ha1 Ha2].
  assert (ownedBy id' a = false) as ->; [|done].
  apply ownedBy_false. right. congruence.
Qed.

(** ** The search of [spotsAvailable] *)

Lemma firstFree_spec sl :
  (firstFree sl = [] ∧ ∀ i s, sl !! i = Some s → isOccupied s = true) ∨
  (∃ j s, sl !! j = Some s ∧ isOccupied s = false ∧
          (∀ i s', (i < j)%nat → sl !! i = Some s' → isOccupied s' = true) ∧
          firstFree sl = [slotIndex s]).
Proof.
  induction sl as [|a sl IH]; simpl.
  - left. split; [done|]. intros i s H. by rewrite lookup_nil in H.
  - destruct (isOccupied a) eqn:Ha; simpl.
    + destruct IH as [[H1 H2]|(j & s & H1 & H2 & H3 & H4)].
      * left. split; [done|]. intros [|i] s H; simplify_eq/=; eauto.
      * right. exists (S j), s. repeat split; try done.
        intros [|i] s' Hi H; simplify_eq/=; [done|]. eapply H3; [|done]. lia.
    + right. exists 0%nat, a. repeat split; try done. intros i s' Hi. lia.
Qed.

Lemma firstFreePair_cons a b sl :
  firstFreePair (a :: b :: sl)
  = if negb (isOccupied a) && negb (isOccupied b)
    then [slotIndex a; slotIndex b] else firstFreePair (b :: sl).
Proof. done. Qed.

Lemma firstFreePair_spec sl :
  (firstFreePair sl = [] ∧
   ∀ i a b, sl !! i = Some a → sl !! S i = Some b →
            isOccupied a = true ∨ isOccupied b = true) ∨
  (∃ j a b, sl !! j = Some a ∧ sl !! S j = Some b ∧
            isOccupied a = false ∧ isOccupied b = false ∧
            (∀ i a' b', (i < j)%nat → sl !! i = Some a' → sl !! S i = Some b' →
                        isOccupied a' = true ∨ isOccupied b' = true) ∧
            firstFreePair sl = [slotIndex a; slotIndex b]).
Proof.
  induction sl as [|a sl IH].
  - left. split; [done|]. intros i a b H. by rewrite lookup_nil in H.
  - destruct sl as [|b sl].
    + left. split; [done|]. intros [|i] a' b' H1 H2; simplify_eq/=.
    + rewrite firstFreePair_cons.
      destruct (negb (isOccupied a) && negb (isOccupied b)) eqn:Hab.
      * right. exists 0%nat, a, b.
        apply andb_true_iff in Hab as [Ha%negb_true_iff Hb%negb_true_iff].
        repeat split; try done. intros i a' b' Hi. lia.
      * assert (isOccupied a = true ∨ isOccupied b = true) as Hocc.
        { apply andb_false_iff in Hab as [H%negb_false_iff|H%negb_false_iff]; auto. }
        destruct IH as [[H1 H2]|(j & a0 & b0 & H1 & H2 & H3 & H4 & H5 & H6)].
        -- left. split; [done|]. intros [|i] a' b' Hi1 Hi2.
           ++ simplify_eq/=. done.
           ++ eapply (H2 i); done.
        -- right. exists (S j), a0, b0. repeat split; try done.
           intros [|i] a' b' Hi Hi1 Hi2.
           ++ simplify_eq/=. done.
           ++ eapply (H5 i); [lia|done..].
Qed.

Lemma slotCount_cases machine :
  (slotsNeeded machine = 1 ∧ slotCount machine = 1%nat ∧ kind machine ≠ Truck) ∨
  (slotsNeeded machine = 2 ∧ slotCount machine = 2%nat ∧ kind machine = Truck).
Proof. unfold slotCount, slotsNeeded. destruct (kind machine); auto. Qed.

Lemma slotCount_Z machine : Z.of_nat (slotCount machine) = slotsNeeded machine.
Proof. destruct (slotCount_cases machine) as [(-> & -> & _)|(-> & -> & _)]; done. Qed.

Lemma freeRun_1 sl j :
  freeRun sl j 1 ↔ ∃ s, sl !! j = Some s ∧ isOccupied s = false.
Proof.
  split.
  - intros H. apply H. lia.
  - intros H i Hi. by replace i with j by lia.
Qed.

Lemma freeRun_2 sl j :
  freeRun sl j 2 ↔ ∃ a b, sl !! j = Some a ∧ sl !! S j = Some b ∧
                          isOccupied a = false ∧ isOccupied b = false.
Proof.
  split.
  - intros H. destruct (H j) as (a & ? & ?); [lia|].
    destruct (H (S j)) as (b & ? & ?); [lia|]. by exists a, b.
  - intros (a & b & ? & ? & ? & ?) i Hi.
    destruct (decide (i = j)) as [->|]; [by exists a|].
    replace i with (S j) by lia. by exists b.
Qed.

(** On a level whose slots carry their positions, [spotsAvailable] returns
    the first run of free slots of the length the machine needs, and nothing
    when there is no such run. *)
Lemma spotsAvailable_spec lvl machine :
  indexed (slotList lvl) →
  (spotsAvailable lvl machine = [] ∧
   ∀ j, ¬ freeRun (slotList lvl) j (slotCount machine)) ∨
  (∃ j, spotsAvailable lvl machine = indexRun j (slotCount machine) ∧
        freeRun (slotList lvl) j (slotCount machine) ∧
        ∀ i, (i < j)%nat → ¬ freeRun (slotList lvl) i (slotCount machine)).
Proof.
  intros Hidx. unfold spotsAvailable.
  destruct (slotCount_cases machine) as [(-> & -> & _)|(-> & -> & _)]; simpl.
  - destruct (firstFree_spec (slotList lvl)) as [[H1 H2]|(j & s & H1 & H2 & H3 & H4)].
    + left. split; [done|]. intros j (s & Hs & Hf)%freeRun_1.
      apply H2 in Hs. congruence.
    + right. exists j. rewrite H4, (Hidx _ _ H1). split; [done|]. split.
      * apply freeRun_1. eauto.
      * intros i Hi (s' & Hs' & Hf)%freeRun_1.
        specialize (H3 _ _ Hi Hs'). congruence.
  - destruct (firstFreePair_spec (slotList lvl))
      as [[H1 H2]|(j & a & b & H1 & H2 & H3 & H4 & H5 & H6)].
    + left. split; [done|]. intros j (a & b & Ha & Hb & Hfa & Hfb)%freeRun_2.
      destruct (H2 _ _ _ Ha Hb); congruence.
    + right. exists j. rewrite H6, (Hidx _ _ H1), (Hidx _ _ H2).
      split; [done|]. split.
      * apply freeRun_2. eauto 10.
      * intros i Hi (a' & b' & Ha & Hb & Hfa & Hfb)%freeRun_2.
        destruct (H5 _ _ _ Hi Ha Hb); congruence.
Qed.

(** ** The two loops of [assignMachine] *)

Lemma slotAt_Some sl idx s :
  slotAt sl idx = Some s ↔ 0 ≤ idx ∧ sl !! Z.to_nat idx = Some s.
Proof.
  unfold slotAt. destruct (Z.ltb_spec idx 0) as [Hlt|Hge].
  - split; [done|]. intros [? _]. lia.
  - split; [done|]. by intros [_ ?].
Qed.

Lemma slotAt_inrange sl idx :
  0 ≤ idx < Z.of_nat (length sl) → ∃ s, slotAt sl idx = Some s.
Proof.
  intros H. destruct (lookup_lt_is_Some_2 sl (Z.to_nat idx)) as [s Hs]; [lia|].
  exists s. apply slotAt_Some. split; [lia|done].
Qed.

Lemma slotAt_of_nat sl (j : nat) : slotAt sl (Z.of_nat j) = sl !! j.
Proof.
  unfold slotAt. destruct (Z.ltb_spec (Z.of_nat j) 0); [lia|].
  by rewrite Nat2Z.id.
Qed.

Lemma occupySlot_idem s id :
  (occupySlot (occupySlot s id).2 id).2 = (occupySlot s id).2.
Proof. unfold occupySlot. by destruct (isOccupied s) eqn:H; simpl; rewrite ?H. Qed.

Lemma allFree_inrange sl idxs :
  (∀ idx, idx ∈ idxs → 0 ≤ idx < Z.of_nat (length sl)) →
  (allFree sl idxs = Some true ∧
   ∀ idx, idx ∈ idxs → ∃ s, slotAt sl idx = Some s ∧ isOccupied s = false) ∨
  (allFree sl idxs = Some false ∧
   ∃ idx s, idx ∈ idxs ∧ slotAt sl idx = Some s ∧ isOccupied s = true).
Proof.
  induction idxs as [|idx rest IH]; intros Hin; simpl.
  - left. split; [done|]. intros idx H. by apply elem_of_nil in H.
  - destruct (slotAt_inrange sl idx) as [s Hs]; [apply Hin; left|].
    rewrite Hs. simpl. destruct (isOccupied s) eqn:Hocc.
    + right. split; [done|]. exists idx, s. split; [left|done].
    + destruct IH as [[H1 H2]|(H1 & idx' & s' & H2 & H3)].
      * intros idx' H. apply Hin. by right.
      * left. split; [done|]. intros idx' [->|H]%elem_of_cons; eauto.
      * right. split; [done|]. exists idx', s'. split; [by right|done].
Qed.

Lemma occupyAll_inrange sl id idxs :
  (∀ idx, idx ∈ idxs → 0 ≤ idx < Z.of_nat (length sl)) →
  ∃ sl', occupyAll sl id idxs = Some sl' ∧ length sl' = length sl ∧
         ∀ j, sl' !! j = if decide (Z.of_nat j ∈ idxs)
                         then (λ s, (occupySlot s id).2) <$> sl !! j
                         else sl !! j.
Proof.
  revert sl. induction idxs as [|idx rest IH]; intros sl Hin; cbn [occupyAll].
  - exists sl. split; [done|]. split; [done|]. intros j.
    case_decide as H; [|done]. by apply elem_of_nil in H.
  - destruct (slotAt_inrange sl idx) as [s Hs]; [apply Hin; left|].
    rewrite Hs. simpl. apply slotAt_Some in Hs as [Hidx Hs].
    set (sl1 := <[Z.to_nat idx := (occupySlot s id).2]> sl).
    destruct (IH sl1) as (sl' & H1 & H2 & H3).
    { intros idx' H. unfold sl1. rewrite length_insert. apply Hin. by right. }
    exists sl'. split; [done|]. split.
    { rewrite H2. unfold sl1. by rewrite length_insert. }
    intros j. rewrite H3. unfold sl1.
    destruct (decide (Z.to_nat idx = j)) as [<-|Hne].
    + rewrite list_lookup_insert_eq by (by eapply lookup_lt_Some).
      rewrite Hs. rewrite Z2Nat.id by done. simpl.
      destruct (decide (idx ∈ idx :: rest)) as [_|Hn]; [|destruct Hn; left].
      rewrite occupySlot_idem. by case_decide.
    + rewrite list_lookup_insert_ne by done.
      assert (Z.of_nat j ≠ idx) by lia.
      destruct (decide (Z.of_nat j ∈ rest)) as [Hr|Hr].
      * rewrite decide_True; [done|by right].
      * rewrite decide_False; [done|]. intros [?|?]%elem_of_cons; done.
Qed.

(** ** Occupying a run of free slots *)

Lemma markFrom_length sl id j n : length (markFrom sl id j n) = length sl.
Proof.
  revert sl j. induction n as [|n IH]; intros sl j; simpl; [done|].
  by rewrite IH, length_alter.
Qed.

Lemma markFrom_lookup sl id j n i :
  markFrom sl id j n !! i
  = if decide (j ≤ i < j + n)%nat then setOccupant id <$> sl !! i else sl !! i.
Proof.
  revert sl j. induction n as [|n IH]; intros sl j; simpl.
  - case_decide; [lia|done].
  - rewrite IH. destruct (decide (i = j)) as [->|Hne].
    + rewrite decide_False by lia. rewrite decide_True by lia.
      apply list_lookup_alter_eq.
    + rewrite list_lookup_alter_ne by done.
      repeat case_decide; try done; lia.
Qed.

Lemma freeRun_alter_before sl f j n :
  freeRun sl j (S n) → freeRun (alter f j sl) (S j) n.
Proof.
  intros H i Hi. rewrite list_lookup_alter_ne by lia. apply H. lia.
Qed.

Lemma allFree_run sl j n :
  freeRun sl j n → allFree sl (indexRun j n) = Some true.
Proof.
  revert j. induction n as [|n IH]; intros j H; [done|].
  unfold indexRun. simpl. rewrite slotAt_of_nat.
  destruct (H j) as (s & -> & Hs); [lia|]. simpl. rewrite Hs.
  apply IH. intros i Hi. apply H. lia.
Qed.

Lemma occupyAll_run sl id j n :
  freeRun sl j n → occupyAll sl id (indexRun j n) = Some (markFrom sl id j n).
Proof.
  revert sl j. induction n as [|n IH]; intros sl j H; [done|].
  unfold indexRun. simpl. rewrite slotAt_of_nat.
  destruct (H j) as (s & Hj & Hs); [lia|]. rewrite Hj. simpl.
  rewrite Nat2Z.id, (occupySlot_free _ _ Hs). simpl.
  assert (<[j:=setOccupant id s]> sl = alter (setOccupant id) j sl) as ->.
  { apply list_eq. intros i. destruct (decide (i = j)) as [->|].
    - rewrite list_lookup_alter_eq, Hj.
      apply list_lookup_insert_eq. by eapply lookup_lt_Some.
    - by rewrite list_lookup_alter_ne, list_lookup_insert_ne. }
  apply (IH _ (S j)). by apply freeRun_alter_before.
Qed.

Lemma assignMachine_run lvl machine j n :
  freeRun (slotList lvl) j n →
  assignMachine lvl machine (indexRun j n)
  = Some (true, mkLevel (levelIndex lvl)
                        (markFrom (slotList lvl) (identifier machine) j n)).
Proof.
  intros H. unfold assignMachine.
  rewrite (allFree_run _ _ _ H). simpl. by rewrite (occupyAll_run _ _ _ _ H).
Qed.

Lemma countIf_markFrom P sl id j n :
  freeRun sl j n →
  (∀ s, isOccupied s = false → P s = true ∧ P (setOccupant id s) = false) →
  countIf P (markFrom sl id j n) = countIf P sl - Z.of_nat n.
Proof.
  intros H HP. revert sl j H. induction n as [|n IH]; intros sl j H; simpl.
  - lia.
  - rewrite IH by by apply freeRun_alter_before.
    destruct (H j) as (s & Hj & Hs); [lia|].
    rewrite (countIf_alter _ _ _ _ _ Hj).
    destruct (HP s Hs) as [-> ->]. lia.
Qed.

Lemma countIf_markFrom_same P sl id j n :
  freeRun sl j n →
  (∀ s, isOccupied s = false → P s = false ∧ P (setOccupant id s) = false) →
  countIf P (markFrom sl id j n) = countIf P sl.
Proof.
  intros H HP. revert sl j H. induction n as [|n IH]; intros sl j H; simpl.
  - lia.
  - rewrite IH by by apply freeRun_alter_before.
    destruct (H j) as (s & Hj & Hs); [lia|].
    rewrite (countIf_alter _ _ _ _ _ Hj).
    destruct (HP s Hs) as [-> ->]. lia.
Qed.

Lemma countIf_markFrom_own sl id j n :
  freeRun sl j n →
  countIf (ownedBy id) (markFrom sl id j n) = countIf (ownedBy id) sl + Z.of_nat n.
Proof.
  revert sl j. induction n as [|n IH]; intros sl j H; simpl.
  - lia.
  - rewrite IH by by apply freeRun_alter_before.
    destruct (H j) as (s & Hj & Hs); [lia|].
    rewrite (countIf_alter _ _ _ _ _ Hj).
    assert (ownedBy id s = false) as -> by (apply ownedBy_false; auto).
    assert (ownedBy id (setOccupant id s) = true) as -> by (by apply ownedBy_true).
    lia.
Qed.

(** ** The loop of [storeMachine] *)

Lemma storeLoop_cons lvl rest machine :
  storeLoop (lvl :: rest) machine
  = match spotsAvailable lvl machine with
    | [] => '(found, rest') ← storeLoop rest machine; Some (found, lvl :: rest')
    | _ :: _ =>
        '(ok, lvl') ← assignMachine lvl machine (spotsAvailable lvl machine);
        if ok : bool
        then Some (Some (levelIndex lvl', spotsAvailable lvl machine), lvl' :: rest)
        else '(found, rest') ← storeLoop rest machine; Some (found, lvl' :: rest')
    end.
Proof. done. Qed.

Lemma slotCount_pos machine : ∃ n, slotCount machine = S n.
Proof.
  destruct (slotCount_cases machine) as [(_ & -> & _)|(_ & -> & _)]; eauto.
Qed.

Lemma storeLoop_spec ls machine :
  levelsIndexed ls →
  (storeLoop ls machine = Some (None, ls) ∧ noFit ls (slotCount machine)) ∨
  (∃ k j lvl,
      firstFit ls (slotCount machine) k j lvl ∧
      storeLoop ls machine
      = Some (Some (levelIndex lvl, indexRun j (slotCount machine)),
              <[k := takeSlots lvl machine j]> ls)).
Proof.
  induction ls as [|lvl rest IH]; intros Hidx.
  - left. split; [done|]. intros k lvl j H. by rewrite lookup_nil in H.
  - rewrite storeLoop_cons.
    destruct (spotsAvailable_spec lvl machine (Hidx 0%nat lvl eq_refl))
      as [[H1 H2]|(j & H1 & H2 & H3)].
    + rewrite H1.
      destruct IH as [[H4 H5]|(k & j & lvl' & (H4 & H5 & H6 & H7) & H8)].
      { intros k lvl' H. by apply (Hidx (S k)). }
      * left. rewrite H4. split; [done|].
        intros [|k] lvl' j H; simplify_eq/=; eauto.
      * right. exists (S k), j, lvl'. rewrite H8. split; [|done].
        repeat split; try done.
        intros [|k'] lvl'' j' Hk H; simplify_eq/=; [done|].
        eapply H7; [|done]. lia.
    + right. exists 0%nat, j, lvl. rewrite H1.
      destruct (indexRun j (slotCount machine)) as [|z zs] eqn:E.
      { destruct (slotCount_pos machine) as [n Hn]. by rewrite Hn in E. }
      rewrite <- E, (assignMachine_run _ _ _ _ H2). simpl.
      split; [|done]. repeat split; try done.
      intros k' lvl' j' Hk. lia.
Qed.

Lemma storeMachine_parked g machine :
  is_Some (machineLocations g !! identifier machine) →
  storeMachine g machine = Some (false, g).
Proof. intros [loc H]. unfold storeMachine. by rewrite H. Qed.

(** [storeMachine] for a machine that is not parked: first fit, or nothing. *)
Lemma storeMachine_spec g machine :
  levelsIndexed (levels g) →
  machineLocations g !! identifier machine = None →
  (storeMachine g machine = Some (false, g) ∧
   noFit (levels g) (slotCount machine)) ∨
  (∃ k j lvl,
      firstFit (levels g) (slotCount machine) k j lvl ∧
      storeMachine g machine = Some (true, parkAt g machine k j lvl)).
Proof.
  intros Hidx Hloc. unfold storeMachine. rewrite Hloc.
  destruct (storeLoop_spec (levels g) machine Hidx)
    as [[H1 H2]|(k & j & lvl & H1 & H2)].
  - left. rewrite H1. simpl. split; [|done]. by destruct g.
  - right. exists k, j, lvl. rewrite H2. done.
Qed.

(** ** Sums over the levels and over the catalog *)

Lemma totalFree_insert ls k lvl lvl' locs cat :
  ls !! k = Some lvl →
  totalFree (mkGarage (<[k := lvl']> ls) locs cat)
  = totalFree (mkGarage ls locs cat) - freeSlotsCount lvl + freeSlotsCount lvl'.
Proof.
  unfold totalFree. simpl. revert k.
  induction ls as [|a ls IH]; intros [|k] H; simplify_eq/=.
  - lia.
  - rewrite (IH k H). lia.
Qed.

Lemma parkedSlots_insert ls locs (cat : gmap string Machine) id machine :
  cat !! id = None →
  parkedSlots (mkGarage ls locs (<[id := machine]> cat))
  = slotsNeeded machine + parkedSlots (mkGarage ls locs cat).
Proof.
  intros H. unfold parkedSlots. simpl.
  rewrite map_fold_insert_L; [done| |done]. intros. lia.
Qed.

Lemma parkedSlots_delete ls locs (cat : gmap string Machine) id machine :
  cat !! id = Some machine →
  parkedSlots (mkGarage ls locs (delete id cat))
  = parkedSlots (mkGarage ls locs cat) - slotsNeeded machine.
Proof.
  intros H. unfold parkedSlots. simpl.
  rewrite (map_fold_delete_L _ _ id machine cat); [lia| |done]. intros. lia.
Qed.

(** ** The invariant holds in a new garage *)

Lemma newLevel_lookup (index : Z) (N j : nat) s :
  slotList (newLevel index (Z.of_nat N)) !! j = Some s →
  s = newSlot index (Z.of_nat j) ∧ (j < N)%nat.
Proof.
  unfold newLevel. simpl. rewrite Nat2Z.id, list_lookup_fmap.
  intros H. apply fmap_Some in H as (i & [-> Hi]%lookup_seq & ->). done.
Qed.

Lemma newLevel_length (index : Z) (N : nat) :
  length (slotList (newLevel index (Z.of_nat N))) = N.
Proof. unfold newLevel. simpl. by rewrite length_fmap, length_seq, Nat2Z.id. Qed.

Lemma newLevel_free (index : Z) (N : nat) :
  freeSlotsCount (newLevel index (Z.of_nat N)) = Z.of_nat N.
Proof.
  rewrite freeSlotsCount_countIf. unfold newLevel. simpl. rewrite Nat2Z.id.
  generalize 0%nat. induction N as [|N IH]; intros o; [done|].
  cbn [seq fmap list_fmap countIf]. rewrite IH. simpl. lia.
Qed.

Lemma newGarage_lookup (L N k : nat) lvl :
  levels (newGarage (Z.of_nat L) (Z.of_nat N)) !! k = Some lvl →
  lvl = newLevel (Z.of_nat k) (Z.of_nat N) ∧ (k < L)%nat.
Proof.
  unfold newGarage. simpl. rewrite Nat2Z.id, list_lookup_fmap.
  intros H. apply fmap_Some in H as (i & [-> Hi]%lookup_seq & ->). done.
Qed.

Lemma newGarage_totalFree (L N : nat) :
  totalFree (newGarage (Z.of_nat L) (Z.of_nat N)) = Z.of_nat L * Z.of_nat N.
Proof.
  unfold totalFree, newGarage. simpl. rewrite Nat2Z.id.
  generalize 0%nat. induction L as [|L IH]; intros o; [done|].
  cbn [seq fmap list_fmap foldr]. rewrite IH, newLevel_free. lia.
Qed.

Lemma newGarage_inv (L N : nat) :
  GarageInv L N (newGarage (Z.of_nat L) (Z.of_nat N)).
Proof.
  split.
  - split.
    + unfold newGarage. simpl. by rewrite length_fmap, length_seq, Nat2Z.id.
    + intros k lvl [-> _]%newGarage_lookup. split; [done|apply newLevel_length].
    + intros k lvl j s [-> _]%newGarage_lookup [-> _]%newLevel_lookup. done.
  - intros id machine H. done.
  - intros id w idxs H. done.
  - intros k j s H Hocc. unfold slotOf in H.
    apply bind_Some in H as (lvl & [-> _]%newGarage_lookup & [-> _]%newLevel_lookup).
    done.
  - rewrite newGarage_totalFree. unfold parkedSlots. simpl.
    rewrite map_fold_empty. lia.
Qed.

(** ** [storeMachine] keeps the invariant *)

Lemma inv_catalog_None L N g id :
  GarageInv L N g → machineLocations g !! id = None →
  machineCatalog g !! id = None.
Proof.
  intros Hinv Hnone. destruct (machineCatalog g !! id) eqn:E; [|done].
  apply (gi_catalog _ _ _ Hinv) in E as [? E]. congruence.
Qed.

Lemma inv_not_owned L N g id k lvl :
  GarageInv L N g → machineLocations g !! id = None →
  levels g !! k = Some lvl →
  ∀ s, s ∈ slotList lvl → ownedBy id s = false.
Proof.
  intros Hinv Hnone Hk s [i Hi]%list_elem_of_lookup. apply ownedBy_false.
  destruct (isOccupied s) eqn:Ho; [|auto]. right. intros Heq.
  destruct (gi_owner _ _ _ Hinv k i s) as (idxs & Hl & _); [|done|].
  - unfold slotOf. by rewrite Hk.
  - rewrite Heq in Hl. congruence.
Qed.

Lemma inv_indexed L N g : GarageInv L N g → levelsIndexed (levels g).
Proof.
  intros Hinv k lvl Hk j s Hs.
  by destruct (lo_slot _ _ _ (gi_levels _ _ _ Hinv) _ _ _ _ Hk Hs) as (_ & ? & _).
Qed.

Lemma elem_of_indexRun (i j n : nat) :
  Z.of_nat i ∈ indexRun j n ↔ (j ≤ i < j + n)%nat.
Proof.
  unfold indexRun. rewrite list_elem_of_fmap. split.
  - intros (x & Hx & Hin%elem_of_seq). lia.
  - intros H. exists i. split; [done|]. apply elem_of_seq. lia.
Qed.

Lemma parkAt_inv L N g machine k j lvl :
  GarageInv L N g →
  machineLocations g !! identifier machine = None →
  levels g !! k = Some lvl →
  freeRun (slotList lvl) j (slotCount machine) →
  GarageInv L N (parkAt g machine k j lvl).
Proof.
  intros Hinv Hnone Hk Hfree.
  pose proof (inv_catalog_None _ _ _ _ Hinv Hnone) as Hcat.
  pose proof (inv_not_owned _ _ _ _ _ _ Hinv Hnone Hk) as Hno.
  assert (k < length (levels g))%nat as Hklt by (by eapply lookup_lt_Some).
  destruct Hinv as [[HL1 HL2 HL3] HC HLoc HO HT].
  split.
  - split.
    + simpl. by rewrite length_insert.
    + intros k' lvl' H. simpl in H. destruct (decide (k = k')) as [<-|Hne].
      * rewrite list_lookup_insert_eq in H by done. simplify_eq. simpl.
        rewrite markFrom_length. by apply HL2.
      * rewrite list_lookup_insert_ne in H by done. by apply HL2.
    + intros k' lvl' i s H Hs. simpl in H. destruct (decide (k = k')) as [<-|Hne].
      * rewrite list_lookup_insert_eq in H by done. simplify_eq. simpl in Hs.
        rewrite markFrom_lookup in Hs. destruct (decide _) in Hs.
        -- apply fmap_Some in Hs as (s0 & Hs0 & ->).
           destruct (HL3 _ _ _ _ Hk Hs0) as (? & ? & ?). done.
        -- by eapply HL3.
      * rewrite list_lookup_insert_ne in H by done. by eapply HL3.
  - intros id' m' H. simpl in *. destruct (decide (identifier machine = id')) as [<-|Hne].
    + by rewrite lookup_insert_eq.
    + rewrite lookup_insert_ne in H by done. rewrite lookup_insert_ne by done.
      by eapply HC.
  - intros id' w idxs H. simpl in *. destruct (decide (identifier machine = id')) as [<-|Hne].
    + rewrite lookup_insert_eq in H. simplify_eq.
      exists machine, k, j, (takeSlots lvl machine j).
      rewrite lookup_insert_eq, list_lookup_insert_eq by done.
      repeat split; try done.
      * by apply HL2.
      * intros i Hi. simpl. rewrite markFrom_lookup, decide_True by done.
        destruct (Hfree i Hi) as (s & -> & Hs). by exists (setOccupant (identifier machine) s).
      * simpl. rewrite countIf_markFrom_own by done.
        rewrite (countIf_zero _ _ Hno). rewrite slotCount_Z. lia.
    + rewrite lookup_insert_ne in H by done.
      destruct (HLoc _ _ _ H) as (m' & k' & j' & lvl' & H1 & H2 & H3 & H4 & H5 & H6 & H7).
      rewrite lookup_insert_ne by done.
      destruct (decide (k = k')) as [<-|Hk'].
      * simplify_eq. exists m', k, j', (takeSlots lvl machine j).
        rewrite list_lookup_insert_eq by done. repeat split; try done.
        -- intros i Hi. simpl. rewrite markFrom_lookup.
           destruct (H6 i Hi) as (s & Hs & Hocc & Hid).
           destruct (decide _) as [Hin|_]; [|by exists s].
           destruct (Hfree i Hin) as (s' & Hs' & Hf). congruence.
        -- simpl. rewrite countIf_markFrom_same; [done..|].
           intros s Hs. split; apply ownedBy_false; auto.
      * exists m', k', j', lvl'. rewrite list_lookup_insert_ne by done. done.
  - intros k' i s H Hocc. simpl in *. unfold slotOf in H.
    apply bind_Some in H as (lvl' & Hl & Hs).
    assert (slotOf (levels g) k' i = Some s → ∃ slotIndices,
      <[identifier machine:=(levelIndex lvl, indexRun j (slotCount machine))]> (machineLocations g) !! occupantId s
      = Some (Z.of_nat k', slotIndices) ∧ Z.of_nat i ∈ slotIndices) as Hold.
    { intros Hs'. destruct (HO _ _ _ Hs' Hocc) as (idxs & H1 & H2).
      exists idxs. rewrite lookup_insert_ne; [done|]. congruence. }
    destruct (decide (k = k')) as [<-|Hne].
    + rewrite list_lookup_insert_eq in Hl by done. simplify_eq. simpl in Hs.
      rewrite markFrom_lookup in Hs. destruct (decide _) as [Hin|_] in Hs.
      * apply fmap_Some in Hs as (s0 & Hs0 & ->). simpl.
        exists (indexRun j (slotCount machine)). rewrite lookup_insert_eq.
        destruct (HL2 _ _ Hk) as [-> _]. split; [done|].
        by apply elem_of_indexRun.
      * apply Hold. unfold slotOf. by rewrite Hk.
    + rewrite list_lookup_insert_ne in Hl by done.
      apply Hold. unfold slotOf. by rewrite Hl.
  - unfold parkAt. rewrite parkedSlots_insert by done.
    rewrite (totalFree_insert _ _ _ _ _ _ Hk).
    rewrite !freeSlotsCount_countIf. simpl.
    rewrite (countIf_markFrom isFree); [|done|].
    2: { intros s Hs. unfold isFree. simpl. by rewrite Hs. }
    pose proof (slotCount_Z machine).
    change (totalFree (mkGarage (levels g) ?a ?b)) with (totalFree g).
    change (parkedSlots (mkGarage ?a ?b (machineCatalog g))) with (parkedSlots g).
    lia.
Qed.

(** ** [unparkMachine] keeps the invariant *)

Lemma unparkMachine_absent g id :
  machineLocations g !! id = None → unparkMachine g id = Some (false, g).
Proof. intros H. unfold unparkMachine. by rewrite H. Qed.

Lemma levelAt_of_nat ls (k : nat) : levelAt ls (Z.of_nat k) = ls !! k.
Proof.
  unfold levelAt. destruct (Z.ltb_spec (Z.of_nat k) 0); [lia|].
  by rewrite Nat2Z.id.
Qed.

Lemma slotsNeeded_pos machine : 1 ≤ slotsNeeded machine.
Proof. unfold slotsNeeded. destruct (kind machine); lia. Qed.

(** [unparkMachine] for a parked machine, in a garage that satisfies the
    invariant: the level of the location record gives up the slots. *)
Lemma unparkMachine_spec L N g id whichLevel slotIndices :
  GarageInv L N g →
  machineLocations g !! id = Some (whichLevel, slotIndices) →
  ∃ machine k j lvl,
    machineCatalog g !! id = Some machine ∧ identifier machine = id ∧
    whichLevel = Z.of_nat k ∧ slotIndices = indexRun j (slotCount machine) ∧
    levels g !! k = Some lvl ∧
    ownedRun (slotList lvl) id j (slotCount machine) ∧
    countIf (ownedBy id) (slotList lvl) = slotsNeeded machine ∧
    unparkMachine g id = Some (true, unparkAt g id k lvl).
Proof.
  intros Hinv Hloc.
  destruct (gi_location _ _ _ Hinv _ _ _ Hloc)
    as (m & k & j & lvl & H1 & H2 & H3 & H4 & H5 & H6 & H7).
  exists m, k, j, lvl. repeat split; try done.
  unfold unparkMachine. rewrite Hloc, H3, levelAt_of_nat, H5. simpl.
  rewrite removeMachine_spec, Nat2Z.id.
  destruct (existsb (ownedBy id) (slotList lvl)) eqn:E; [done|].
  apply existsb_false_countIf in E. pose proof (slotsNeeded_pos m). lia.
Qed.

Lemma unparkAt_inv L N g id k lvl machine slotIndices :
  GarageInv L N g →
  machineLocations g !! id = Some (Z.of_nat k, slotIndices) →
  machineCatalog g !! id = Some machine →
  levels g !! k = Some lvl →
  countIf (ownedBy id) (slotList lvl) = slotsNeeded machine →
  GarageInv L N (unparkAt g id k lvl).
Proof.
  intros Hinv Hloc Hcat Hk Hcount.
  assert (k < length (levels g))%nat as Hklt by (by eapply lookup_lt_Some).
  destruct Hinv as [[HL1 HL2 HL3] HC HLoc HO HT].
  split.
  - split.
    + simpl. by rewrite length_insert.
    + intros k' lvl' H. simpl in H. destruct (decide (k = k')) as [<-|Hne].
      * rewrite list_lookup_insert_eq in H by done. simplify_eq. simpl.
        rewrite length_fmap. by apply HL2.
      * rewrite list_lookup_insert_ne in H by done. by apply HL2.
    + intros k' lvl' i s H Hs. simpl in H. destruct (decide (k = k')) as [<-|Hne].
      * rewrite list_lookup_insert_eq in H by done. simplify_eq. simpl in Hs.
        rewrite list_lookup_fmap in Hs.
        apply fmap_Some in Hs as (s0 & Hs0 & ->).
        destruct (HL3 _ _ _ _ Hk Hs0) as (? & ? & ?).
        unfold vacateOwned. by destruct (ownedBy id s0).
      * rewrite list_lookup_insert_ne in H by done. by eapply HL3.
  - intros id' m' H. simpl in *. destruct (decide (id = id')) as [<-|Hne].
    + by rewrite lookup_delete_eq in H.
    + rewrite lookup_delete_ne in H by done. rewrite lookup_delete_ne by done.
      by eapply HC.
  - intros id' w idxs H. simpl in *. destruct (decide (id = id')) as [<-|Hne].
    + by rewrite lookup_delete_eq in H.
    + rewrite lookup_delete_ne in H by done.
      destruct (HLoc _ _ _ H) as (m' & k' & j' & lvl' & H1 & H2 & H3 & H4 & H5 & H6 & H7).
      rewrite lookup_delete_ne by done.
      destruct (decide (k = k')) as [<-|Hk'].
      * simplify_eq. exists m', k, j', (dropSlots lvl id).
        rewrite list_lookup_insert_eq by done. repeat split; try done.
        -- intros i Hi. simpl. rewrite list_lookup_fmap.
           destruct (H6 i Hi) as (s & -> & Hocc & Hid). exists s. simpl.
           unfold vacateOwned.
           assert (ownedBy id s = false) as ->; [|done].
           apply ownedBy_false. right. congruence.
        -- simpl. by rewrite countIf_owned_vacate.
      * exists m', k', j', lvl'. rewrite list_lookup_insert_ne by done. done.
  - intros k' i s H Hocc. simpl in *. unfold slotOf in H.
    apply bind_Some in H as (lvl' & Hl & Hs).
    destruct (decide (k = k')) as [<-|Hne].
    + rewrite list_lookup_insert_eq in Hl by done. simplify_eq. simpl in Hs.
      rewrite list_lookup_fmap in Hs. apply fmap_Some in Hs as (s0 & Hs0 & ->).
      unfold vacateOwned in *. destruct (ownedBy id s0) eqn:Hown; [done|].
      destruct (HO k i s0) as (idxs & H1 & H2); [|done|].
      { unfold slotOf. by rewrite Hk. }
      exists idxs. rewrite lookup_delete_ne; [done|].
      apply ownedBy_false in Hown as [?|?]; congruence.
    + rewrite list_lookup_insert_ne in Hl by done.
      destruct (HO k' i s) as (idxs & H1 & H2); [|done|].
      { unfold slotOf. by rewrite Hl. }
      exists idxs. rewrite lookup_delete_ne; [done|].
      intros Heq. rewrite <- Heq in H1. rewrite Hloc in H1.
      simplify_eq.
  - unfold unparkAt. rewrite (parkedSlots_delete _ _ _ _ _ Hcat).
    rewrite (totalFree_insert _ _ _ _ _ _ Hk).
    rewrite !freeSlotsCount_countIf. simpl. rewrite countIf_free_vacate.
    change (totalFree (mkGarage (levels g) ?a ?b)) with (totalFree g).
    change (parkedSlots (mkGarage ?a ?b (machineCatalog g))) with (parkedSlots g).
    lia.
Qed.

(** ** Every reachable garage satisfies the invariant *)

Lemma storeMachine_inv L N g machine :
  GarageInv L N g →
  ∃ r g', storeMachine g machine = Some (r, g') ∧ GarageInv L N g'.
Proof.
  intros Hinv.
  destruct (machineLocations g !! identifier machine) as [loc|] eqn:Hloc.
  - exists false, g. split; [|done]. apply storeMachine_parked. by rewrite Hloc.
  - destruct (storeMachine_spec g machine (inv_indexed _ _ _ Hinv) Hloc)
      as [[H1 H2]|(k & j & lvl & (H1 & H2 & _) & H3)].
    + by exists false, g.
    + exists true, (parkAt g machine k j lvl). split; [done|].
      by apply parkAt_inv.
Qed.

Lemma unparkMachine_inv L N g id :
  GarageInv L N g →
  ∃ r g', unparkMachine g id = Some (r, g') ∧ GarageInv L N g'.
Proof.
  intros Hinv.
  destruct (machineLocations g !! id) as [[w idxs]|] eqn:Hloc.
  - destruct (unparkMachine_spec _ _ _ _ _ _ Hinv Hloc)
      as (m & k & j & lvl & H1 & H2 & -> & H4 & H5 & H6 & H7 & H8).
    exists true, (unparkAt g id k lvl). split; [done|].
    by eapply unparkAt_inv.
  - exists false, g. split; [|done]. by apply unparkMachine_absent.
Qed.

Lemma step_inv L N g op :
  GarageInv L N g → ∃ g', step g op = Some g' ∧ GarageInv L N g'.
Proof.
  intros Hinv. destruct op as [machine|id]; simpl.
  - destruct (storeMachine_inv _ _ _ machine Hinv) as (r & g' & -> & H).
    by exists g'.
  - destruct (unparkMachine_inv _ _ _ id Hinv) as (r & g' & -> & H).
    by exists g'.
Qed.

Lemma run_inv L N ops g :
  GarageInv L N g → ∃ g', run ops g = Some g' ∧ GarageInv L N g'.
Proof.
  revert g. induction ops as [|op ops IH]; intros g Hinv; simpl.
  - by exists g.
  - destruct (step_inv _ _ _ op Hinv) as (g1 & -> & H1). simpl. by apply IH.
Qed.

Lemma reachable_inv L N g : reachable L N g → GarageInv L N g.
Proof.
  intros [ops Hrun].
  destruct (run_inv L N ops _ (newGarage_inv L N)) as (g' & H1 & H2).
  congruence.
Qed.

(** ** Consequences of the invariant *)

Lemma newGarage_clamp (totalLevels slotsEach : Z) :
  newGarage totalLevels slotsEach
  = newGarage (Z.of_nat (Z.to_nat totalLevels)) (Z.of_nat (Z.to_nat slotsEach)).
Proof. unfold newGarage, newLevel. by rewrite !Nat2Z.id. Qed.

Lemma indexRun_elem idx j n :
  idx ∈ indexRun j n → ∃ i, idx = Z.of_nat i ∧ (j ≤ i < j + n)%nat.
Proof.
  unfold indexRun. intros (i & -> & Hi%elem_of_seq)%list_elem_of_fmap.
  exists i. split; [done|lia].
Qed.

Lemma inv_consistent L N g : GarageInv L N g → locationConsistent g.
Proof.
  intros Hinv.
  assert (∀ id whichLevel slotIndices,
      machineLocations g !! id = Some (whichLevel, slotIndices) →
      slotIndices ≠ [] ∧
      ∀ idx, idx ∈ slotIndices →
             ∃ k j s, whichLevel = Z.of_nat k ∧ idx = Z.of_nat j ∧
                      slotOf (levels g) k j = Some s ∧
                      isOccupied s = true ∧ occupantId s = id) as Hrec.
  { intros id w idxs H.
    destruct (gi_location _ _ _ Hinv _ _ _ H)
      as (m & k & j & lvl & H1 & H2 & -> & -> & H5 & H6 & H7).
    split.
    - destruct (slotCount_pos m) as [n ->]. done.
    - intros idx (i & -> & Hi)%indexRun_elem.
      destruct (H6 i Hi) as (s & Hs & Hocc & Hid).
      exists k, i, s. repeat split; try done. unfold slotOf. by rewrite H5. }
  split; [|split; [done|split]].
  - intros id. split.
    + intros [[w idxs] H].
      destruct (gi_location _ _ _ Hinv _ _ _ H) as (m & _ & _ & _ & H1 & _).
      by exists m.
    + intros [m H]. by apply (gi_catalog _ _ _ Hinv) in H.
  - apply (gi_owner _ _ _ Hinv).
  - intros id1 id2 w idxs1 idxs2 idx H1 H2 Hin1 Hin2.
    destruct (Hrec _ _ _ H1) as [_ Ha]. destruct (Hrec _ _ _ H2) as [_ Hb].
    destruct (Ha _ Hin1) as (k1 & j1 & s1 & -> & -> & Hs1 & _ & <-).
    destruct (Hb _ Hin2) as (k2 & j2 & s2 & Hk & Hj & Hs2 & _ & <-).
    apply Nat2Z.inj in Hk, Hj. subst. congruence.
Qed.

(** ** A failed [storeMachine] changes nothing *)

Lemma assignMachine_false lvl machine slotsToUse lvl' :
  assignMachine lvl machine slotsToUse = Some (false, lvl') → lvl' = lvl.
Proof.
  unfold assignMachine. destruct (allFree _ _) as [[|]|]; simpl; [|congruence|done].
  destruct (occupyAll _ _ _); simpl; congruence.
Qed.

Lemma storeLoop_None ls machine ls' :
  storeLoop ls machine = Some (None, ls') → ls' = ls.
Proof.
  revert ls'. induction ls as [|lvl rest IH]; intros ls' H.
  - simpl in H. congruence.
  - rewrite storeLoop_cons in H. destruct (spotsAvailable lvl machine) as [|z zs].
    + destruct (storeLoop rest machine) as [[found rest']|]; simplify_eq/=.
      by rewrite (IH rest' eq_refl).
    + destruct (assignMachine lvl machine (z :: zs)) as [[[|] lvl']|] eqn:E;
        simplify_eq/=.
      apply assignMachine_false in E as ->.
      destruct (storeLoop rest machine) as [[found rest']|]; simplify_eq/=.
      by rewrite (IH rest' eq_refl).
Qed.

Lemma storeMachine_false g machine g' :
  storeMachine g machine = Some (false, g') → g' = g.
Proof.
  unfold storeMachine. destruct (machineLocations g !! identifier machine).
  - congruence.
  - destruct (storeLoop (levels g) machine) as [[[loc|] ls']|] eqn:E;
      simpl; intros H; simplify_eq.
    apply storeLoop_None in E as ->. by destruct g.
Qed.

(** ** Unparking right after parking *)

Lemma dropSlots_takeSlots L N g machine k j lvl :
  GarageInv L N g →
  machineLocations g !! identifier machine = None →
  levels g !! k = Some lvl →
  freeRun (slotList lvl) j (slotCount machine) →
  dropSlots (takeSlots lvl machine j) (identifier machine) = lvl.
Proof.
  intros Hinv Hnone Hk Hfree.
  pose proof (inv_not_owned _ _ _ _ _ _ Hinv Hnone Hk) as Hno.
  unfold dropSlots, takeSlots. simpl. destruct lvl as [li sl]. simpl in *.
  f_equal. apply list_eq. intros i.
  rewrite list_lookup_fmap, markFrom_lookup.
  destruct (decide _) as [Hin|Hout].
  - destruct (Hfree i Hin) as (s & Hs & Hf). rewrite Hs. simpl. f_equal.
    destruct (lo_slot _ _ _ (gi_levels _ _ _ Hinv) _ _ _ _ Hk Hs) as (_ & _ & Hocc).
    unfold vacateOwned.
    assert (ownedBy (identifier machine) (setOccupant (identifier machine) s) = true)
      as -> by (by apply ownedBy_true).
    destruct s as [a b c d]. simpl in *. rewrite Hf, (Hocc Hf). done.
  - destruct (sl !! i) as [s|] eqn:Hs; [|done]. simpl. f_equal.
    unfold vacateOwned. rewrite Hno; [done|]. apply list_elem_of_lookup. eauto.
Qed.

Lemma unparkAt_parkAt L N g machine k j lvl :
  GarageInv L N g →
  machineLocations g !! identifier machine = None →
  levels g !! k = Some lvl →
  freeRun (slotList lvl) j (slotCount machine) →
  unparkAt (parkAt g machine k j lvl) (identifier machine) k
           (takeSlots lvl machine j) = g.
Proof.
  intros Hinv Hnone Hk Hfree. unfold unparkAt, parkAt. simpl.
  rewrite (dropSlots_takeSlots _ _ _ _ _ _ _ Hinv Hnone Hk Hfree).
  rewrite list_insert_insert_eq, (list_insert_id _ _ _ Hk).
  rewrite !delete_insert_id;
    [by destruct g|by eapply inv_catalog_None|done].
Qed.

(** ** The scenarios of the specification, run on the model *)

(** One level of two slots: the car takes slot 0, the truck does not fit,
    the car leaves, the truck takes the slots 0 and 1 and the garage is full. *)
Example scenario_one_level :
  storeMachine (newGarage 1 2) carA1 = Some (true, garageAfter 1 2 [Park carA1]) ∧
  machineLocations (garageAfter 1 2 [Park carA1]) !! "A1" = Some (0, [0]) ∧
  storeMachine (garageAfter 1 2 [Park carA1]) truckB1
  = Some (false, garageAfter 1 2 [Park carA1]) ∧
  unparkMachine (garageAfter 1 2 [Park carA1]) "A1" = Some (true, newGarage 1 2) ∧
  machineLocations (garageAfter 1 2 [Park carA1; Unpark "A1"; Park truckB1]) !! "B1"
  = Some (0, [0; 1]) ∧
  totalFree (garageAfter 1 2 [Park carA1; Unpark "A1"; Park truckB1]) = 0.
Proof. repeat split; reflexivity. Qed.

(** Two levels of one slot: the second bike goes to level 1, the third one
    finds no space. *)
Example scenario_two_levels :
  machineLocations (garageAfter 2 1 [Park bikeX]) !! "X" = Some (0, [0]) ∧
  machineLocations (garageAfter 2 1 [Park bikeX; Park bikeY]) !! "Y" = Some (1, [0]) ∧
  storeMachine (garageAfter 2 1 [Park bikeX; Park bikeY]) bikeZ
  = Some (false, garageAfter 2 1 [Park bikeX; Park bikeY]).
Proof. repeat split; reflexivity. Qed.

(** * The properties of the specification *)

(** ** Invariants *)

(** C1. After every sequence of [storeMachine] and [unparkMachine] on a new
    garage (the sequence runs to its end), an identifier is in
    [machineLocations] iff it is in [machineCatalog]; every slot recorded for
    it is occupied with that identifier as occupant; every occupied slot is
    recorded for its occupant; no slot is recorded for two identifiers. *)
Theorem locations_consistent_after_operations
    (totalLevels slotsEach : Z) (ops : list Op) :
  ∃ g, run ops (newGarage totalLevels slotsEach) = Some g ∧ locationConsistent g.
Proof.
  rewrite newGarage_clamp.
  destruct (run_inv _ _ ops _
              (newGarage_inv (Z.to_nat totalLevels) (Z.to_nat slotsEach)))
    as (g & H1 & H2).
  exists g. split; [done|]. by eapply inv_consistent.
Qed.

(** C6. In every garage reached from a new garage of [L] levels of [N] slots,
    the sum of [freeSlotsCount] over the levels is [L * N] minus the sum of
    [slotsNeeded] over the parked machines. *)
Theorem free_slots_balance (L N : nat) (ops : list Op) :
  ∃ g, run ops (newGarage (Z.of_nat L) (Z.of_nat N)) = Some g ∧
       totalFree g = Z.of_nat L * Z.of_nat N - parkedSlots g.
Proof.
  destruct (run_inv _ _ ops _ (newGarage_inv L N)) as (g & H1 & H2).
  exists g. split; [done|]. pose proof (gi_total _ _ _ H2). lia.
Qed.

(** ** Failures leave the garage as it was *)

(** C4. [storeMachine] for an identifier that has a location record returns
    [false] and the garage is unchanged. *)
Theorem store_parked_fails (g : Garage) (machine : Machine) :
  is_Some (machineLocations g !! identifier machine) →
  storeMachine g machine = Some (false, g).
Proof. apply storeMachine_parked. Qed.

Lemma store_parked_fails_witness :
  is_Some (machineLocations (garageAfter 1 2 [Park carA1]) !! identifier carA1) ∧
  storeMachine (garageAfter 1 2 [Park carA1]) carA1
  = Some (false, garageAfter 1 2 [Park carA1]).
Proof.
  split; [by eexists|]. apply (store_parked_fails _ carA1). by eexists.
Defined.

(** C5. [unparkMachine] for an identifier without a location record returns
    [false] and the garage is unchanged. *)
Theorem unpark_absent_fails (g : Garage) (machineId : string) :
  machineLocations g !! machineId = None →
  unparkMachine g machineId = Some (false, g).
Proof. apply unparkMachine_absent. Qed.

Lemma unpark_absent_fails_witness :
  machineLocations (garageAfter 1 2 [Park carA1]) !! "B1" = None ∧
  unparkMachine (garageAfter 1 2 [Park carA1]) "B1"
  = Some (false, garageAfter 1 2 [Park carA1]).
Proof. split; [reflexivity|]. apply unpark_absent_fails. reflexivity. Defined.

(** C10. For a machine that is not parked, a [storeMachine] that returns
    [false] leaves the whole garage unchanged; in a reachable garage that is
    what happens when no level has a run of free slots for the machine. *)
Theorem store_failure_unchanged (g : Garage) (machine : Machine) :
  machineLocations g !! identifier machine = None →
  (∀ g', storeMachine g machine = Some (false, g') → g' = g) ∧
  (∀ L N, reachable L N g → noFit (levels g) (slotCount machine) →
          storeMachine g machine = Some (false, g)).
Proof.
  intros Hnone. split.
  - intros g'. apply storeMachine_false.
  - intros L N Hinv%reachable_inv Hno.
    destruct (storeMachine_spec g machine (inv_indexed _ _ _ Hinv) Hnone)
      as [[H1 _]|(k & j & lvl & (H1 & H2 & _) & _)]; [done|].
    destruct (Hno _ _ _ H1 H2).
Qed.

Lemma store_failure_unchanged_witness :
  machineLocations (garageAfter 2 1 [Park bikeX; Park bikeY]) !! identifier bikeZ
  = None ∧
  storeMachine (garageAfter 2 1 [Park bikeX; Park bikeY]) bikeZ
  = Some (false, garageAfter 2 1 [Park bikeX; Park bikeY]) ∧
  ∀ g', storeMachine (garageAfter 2 1 [Park bikeX; Park bikeY]) bikeZ
        = Some (false, g') →
        g' = garageAfter 2 1 [Park bikeX; Park bikeY].
Proof.
  split; [reflexivity|]. split; [reflexivity|].
  apply (store_failure_unchanged _ bikeZ). reflexivity.
Defined.

(** C7. [assignMachine] on slot indices inside the level: when one of the
    listed slots is occupied it returns [false] and the level is unchanged;
    when all are free it returns [true], every listed slot is occupied by the
    machine, and the other slots are unchanged. *)
Theorem assign_all_or_nothing (lvl : Level) (machine : Machine) (slotsToUse : list Z) :
  Forall (λ idx, 0 ≤ idx < Z.of_nat (length (slotList lvl))) slotsToUse →
  ((∃ idx s, idx ∈ slotsToUse ∧ slotAt (slotList lvl) idx = Some s ∧
             isOccupied s = true) →
   assignMachine lvl machine slotsToUse = Some (false, lvl)) ∧
  ((∀ idx s, idx ∈ slotsToUse → slotAt (slotList lvl) idx = Some s →
             isOccupied s = false) →
   ∃ lvl', assignMachine lvl machine slotsToUse = Some (true, lvl') ∧
           levelIndex lvl' = levelIndex lvl ∧
           length (slotList lvl') = length (slotList lvl) ∧
           ∀ j, slotList lvl' !! j
                = if decide (Z.of_nat j ∈ slotsToUse)
                  then setOccupant (identifier machine) <$> slotList lvl !! j
                  else slotList lvl !! j).
Proof.
  intros Hin. rewrite Forall_forall in Hin.
  destruct (allFree_inrange _ _ Hin) as [[H1 H2]|(H1 & idx & s & H2 & H3 & H4)].
  - split.
    + intros (idx & s & Hi & Hs & Hocc). destruct (H2 _ Hi) as (s' & Hs' & Hf).
      congruence.
    + intros _. unfold assignMachine. rewrite H1. simpl.
      destruct (occupyAll_inrange (slotList lvl) (identifier machine) _ Hin)
        as (sl' & H3 & H4 & H5).
      rewrite H3. simpl. eexists. split; [done|]. simpl.
      split; [done|]. split; [done|]. intros j. rewrite H5.
      destruct (decide _) as [Hj|]; [|done].
      destruct (slotList lvl !! j) as [s|] eqn:Hs; [|done]. simpl.
      destruct (H2 _ Hj) as (s' & Hs' & Hf). rewrite slotAt_of_nat in Hs'.
      simplify_eq. by rewrite occupySlot_free.
  - split.
    + intros _. unfold assignMachine. by rewrite H1.
    + intros Hfree. specialize (Hfree _ _ H2 H3). congruence.
Qed.

Lemma assign_all_or_nothing_witness :
  Forall (λ idx, 0 ≤ idx < Z.of_nat (length (slotList levelA))) [1; 2] ∧
  (∃ lvl', assignMachine levelA truckB1 [1; 2] = Some (true, lvl') ∧
           slotList lvl' !! 1%nat = Some (setOccupant "B1" (newSlot 0 1)) ∧
           slotList lvl' !! 0%nat = slotList levelA !! 0%nat) ∧
  Forall (λ idx, 0 ≤ idx < Z.of_nat (length (slotList levelA))) [1; 0] ∧
  assignMachine levelA truckB1 [1; 0] = Some (false, levelA).
Proof.
  assert (∀ l, Forall (λ idx, 0 ≤ idx < 3) l →
               Forall (λ idx, 0 ≤ idx < Z.of_nat (length (slotList levelA))) l)
    as Hlen by done.
  split; [apply Hlen; repeat constructor; lia|]. split.
  - destruct (assign_all_or_nothing levelA truckB1 [1; 2]) as [_ H].
    { apply Hlen. repeat constructor; lia. }
    destruct H as (lvl' & H1 & _ & _ & H2).
    { intros idx s [->|[->|Hin%elem_of_nil]%elem_of_cons]%elem_of_cons Hs;
        [| |done]; vm_compute in Hs; by simplify_eq. }
    exists lvl'. split; [done|]. split.
    + by rewrite (H2 1%nat).
    + by rewrite (H2 0%nat).
  - split; [apply Hlen; repeat constructor; lia|].
    apply (assign_all_or_nothing levelA truckB1 [1; 0]).
    + apply Hlen. repeat constructor; lia.
    + exists 0, (setOccupant "A1" (newSlot 0 0)).
      split; [by right; left|]. done.
Defined.

(** ** Machines *)

(** C8. [slotsNeeded] is 2 for a [Truck] and 1 for a [Bike] or a [Car]; a
    kind string other than "Bike" and "Car" is read as [Truck], so that the
    machine needs 2 slots and [spotsAvailable] looks for two adjacent ones. *)
Theorem slotsNeeded_and_kind_parsing (machine : Machine) (id kindStr : string) :
  slotsNeeded machine = match kind machine with Truck => 2 | Bike | Car => 1 end ∧
  parseKind "Bike" = Bike ∧ parseKind "Car" = Car ∧ parseKind "Truck" = Truck ∧
  (kindStr ≠ "Bike" → kindStr ≠ "Car" →
   parseKind kindStr = Truck ∧
   slotsNeeded (mkMachine id (parseKind kindStr)) = 2 ∧
   ∀ lvl, indexed (slotList lvl) →
          spotsAvailable lvl (mkMachine id (parseKind kindStr)) = [] ∨
          ∃ j, spotsAvailable lvl (mkMachine id (parseKind kindStr))
               = [Z.of_nat j; Z.of_nat j + 1] ∧
               freeRun (slotList lvl) j 2).
Proof.
  split; [done|]. do 3 (split; [done|]). intros HB HC.
  assert (parseKind kindStr = Truck) as Hp.
  { unfold parseKind.
    destruct (String.eqb_spec kindStr "Bike"); [done|].
    by destruct (String.eqb_spec kindStr "Car"). }
  rewrite Hp. split; [done|]. split; [done|]. intros lvl Hidx.
  destruct (spotsAvailable_spec lvl (mkMachine id Truck) Hidx)
    as [[H1 _]|(j & H1 & H2 & _)]; [by left|].
  right. exists j. split; [|done]. rewrite H1.
  unfold indexRun. simpl. by rewrite Nat2Z.inj_succ.
Qed.

Lemma slotsNeeded_and_kind_parsing_witness :
  "Bus" ≠ "Bike" ∧ "Bus" ≠ "Car" ∧
  parseKind "Bus" = Truck ∧ slotsNeeded (mkMachine "B7" (parseKind "Bus")) = 2.
Proof.
  split; [done|]. split; [done|].
  destruct (slotsNeeded_and_kind_parsing bikeX "B7" "Bus") as (_ & _ & _ & _ & H).
  destruct H as (H1 & H2 & _); done.
Defined.

(** ** Parking and unparking *)

(** C9. In a reachable garage, when [storeMachine] of a machine succeeds, the
    [unparkMachine] of its identifier that follows succeeds and gives back
    the garage as it was before: slots, location map and catalog. *)
Theorem park_unpark_roundtrip (L N : nat) (g g' : Garage) (machine : Machine) :
  reachable L N g →
  storeMachine g machine = Some (true, g') →
  unparkMachine g' (identifier machine) = Some (true, g).
Proof.
  intros Hinv%reachable_inv Hstore.
  destruct (machineLocations g !! identifier machine) as [loc|] eqn:Hloc.
  { rewrite storeMachine_parked in Hstore by (by rewrite Hloc). congruence. }
  destruct (storeMachine_spec g machine (inv_indexed _ _ _ Hinv) Hloc)
    as [[H1 _]|(k & j & lvl & (H1 & H2 & _) & H3)]; [congruence|].
  rewrite H3 in Hstore. simplify_eq.
  pose proof (parkAt_inv _ _ _ _ _ _ _ Hinv Hloc H1 H2) as Hinv'.
  assert (machineLocations (parkAt g machine k j lvl) !! identifier machine
          = Some (levelIndex lvl, indexRun j (slotCount machine))) as Hloc'.
  { simpl. by rewrite lookup_insert_eq. }
  destruct (unparkMachine_spec _ _ _ _ _ _ Hinv' Hloc')
    as (m' & k' & j' & lvl' & _ & _ & Hk & _ & Hl & _ & _ & ->).
  destruct (lo_level _ _ _ (gi_levels _ _ _ Hinv) _ _ H1) as [Hidx _].
  assert (k' = k) as -> by lia.
  simpl in Hl. rewrite list_lookup_insert_eq in Hl by (by eapply lookup_lt_Some).
  simplify_eq. by erewrite unparkAt_parkAt.
Qed.

Lemma park_unpark_roundtrip_witness :
  reachable 1 2 (garageAfter 1 2 [Park carA1; Unpark "A1"]) ∧
  storeMachine (garageAfter 1 2 [Park carA1; Unpark "A1"]) truckB1
  = Some (true, garageAfter 1 2 [Park carA1; Unpark "A1"; Park truckB1]) ∧
  unparkMachine (garageAfter 1 2 [Park carA1; Unpark "A1"; Park truckB1])
                (identifier truckB1)
  = Some (true, garageAfter 1 2 [Park carA1; Unpark "A1"]).
Proof.
  assert (reachable 1 2 (garageAfter 1 2 [Park carA1; Unpark "A1"])) as Hr.
  { exists [Park carA1; Unpark "A1"]. reflexivity. }
  split; [done|]. split; [reflexivity|].
  apply (park_unpark_roundtrip 1 2 _ _ truckB1 Hr). reflexivity.
Defined.

Lemma freeRun_bound sl j n : freeRun sl j (S n) → (j + S n ≤ length sl)%nat.
Proof.
  intros H. destruct (H (j + n)%nat) as (s & Hs & _); [lia|].
  apply lookup_lt_Some in Hs. lia.
Qed.

Lemma firstFit_spots ls machine k j lvl :
  levelsIndexed ls →
  firstFit ls (slotCount machine) k j lvl →
  spotsAvailable lvl machine = indexRun j (slotCount machine).
Proof.
  intros Hidx (Hk & Hfree & Hmin & _).
  destruct (spotsAvailable_spec lvl machine (Hidx _ _ Hk))
    as [[_ H]|(j0 & H1 & H2 & H3)].
  - destruct (H _ Hfree).
  - destruct (lt_eq_lt_dec j0 j) as [[Hlt| ->]|Hlt]; [|done|].
    + destruct (Hmin _ Hlt H2).
    + destruct (H3 _ Hlt Hfree).
Qed.

(** C3. In a reachable garage the slots of a successful [storeMachine] are
    the first fit.  A level returns the first run of free slots of the length
    the machine needs (one slot [j] for a [Bike] or a [Car], the pair [j],
    [j + 1] for a [Truck]), inside the level, or nothing when it has no such
    run; the garage records, for the first level that has one, the run that
    level returns. *)
Theorem store_first_fit (L N : nat) (g : Garage) (machine : Machine) :
  reachable L N g →
  (∀ j, indexRun j (slotCount machine)
        = match kind machine with
          | Truck => [Z.of_nat j; Z.of_nat j + 1]
          | Bike | Car => [Z.of_nat j]
          end) ∧
  (∀ k lvl, levels g !! k = Some lvl →
     (spotsAvailable lvl machine = [] ∧
      ∀ j, ¬ freeRun (slotList lvl) j (slotCount machine)) ∨
     (∃ j, spotsAvailable lvl machine = indexRun j (slotCount machine) ∧
           (j + slotCount machine ≤ N)%nat ∧
           freeRun (slotList lvl) j (slotCount machine) ∧
           ∀ i, (i < j)%nat → ¬ freeRun (slotList lvl) i (slotCount machine))) ∧
  (∀ g', storeMachine g machine = Some (true, g') →
     ∃ k j lvl,
       firstFit (levels g) (slotCount machine) k j lvl ∧
       spotsAvailable lvl machine = indexRun j (slotCount machine) ∧
       machineLocations g' !! identifier machine
       = Some (Z.of_nat k, indexRun j (slotCount machine)) ∧
       g' = parkAt g machine k j lvl).
Proof.
  intros Hinv%reachable_inv.
  pose proof (inv_indexed _ _ _ Hinv) as Hidx.
  split; [|split].
  - intros j. unfold indexRun, slotCount, slotsNeeded.
    destruct (kind machine); simpl; try done. by rewrite Nat2Z.inj_succ.
  - intros k lvl Hk.
    destruct (spotsAvailable_spec lvl machine (Hidx _ _ Hk))
      as [H|(j & H1 & H2 & H3)]; [by left|].
    right. exists j. repeat split; try done.
    destruct (lo_level _ _ _ (gi_levels _ _ _ Hinv) _ _ Hk) as [_ <-].
    destruct (slotCount_pos machine) as [n Hn]. rewrite Hn in *.
    by apply freeRun_bound.
  - intros g' Hstore.
    destruct (machineLocations g !! identifier machine) as [loc|] eqn:Hloc.
    { rewrite storeMachine_parked in Hstore by (by rewrite Hloc). congruence. }
    destruct (storeMachine_spec g machine Hidx Hloc)
      as [[H1 _]|(k & j & lvl & Hfit & H3)]; [congruence|].
    rewrite H3 in Hstore. simplify_eq. exists k, j, lvl.
    split; [done|]. split; [by eapply firstFit_spots|]. split; [|done].
    simpl. rewrite lookup_insert_eq. destruct Hfit as (Hk & _).
    by destruct (lo_level _ _ _ (gi_levels _ _ _ Hinv) _ _ Hk) as [-> _].
Qed.

Lemma store_first_fit_witness :
  reachable 2 1 (garageAfter 2 1 [Park bikeX]) ∧
  storeMachine (garageAfter 2 1 [Park bikeX]) bikeY
  = Some (true, garageAfter 2 1 [Park bikeX; Park bikeY]) ∧
  ∃ k j lvl,
    firstFit (levels (garageAfter 2 1 [Park bikeX])) (slotCount bikeY) k j lvl ∧
    spotsAvailable lvl bikeY = indexRun j (slotCount bikeY) ∧
    machineLocations (garageAfter 2 1 [Park bikeX; Park bikeY]) !! identifier bikeY
    = Some (Z.of_nat k, indexRun j (slotCount bikeY)) ∧
    garageAfter 2 1 [Park bikeX; Park bikeY]
    = parkAt (garageAfter 2 1 [Park bikeX]) bikeY k j lvl.
Proof.
  assert (reachable 2 1 (garageAfter 2 1 [Park bikeX])) as Hr.
  { exists [Park bikeX]. reflexivity. }
  split; [done|]. split; [reflexivity|].
  destruct (store_first_fit 2 1 _ bikeY Hr) as (_ & _ & H).
  apply H. reflexivity.
Defined.

(** ** Two-slot machines *)

(** C2, as the code has it: in a reachable garage, for a [Truck] whose
    identifier has no location record, [storeMachine] succeeds iff some level
    has two adjacent free slots, and fails leaving the garage unchanged
    otherwise; on success two adjacent slots of one level that were free are
    now occupied by the machine, the free count of that level is 2 less, and
    every other slot is unchanged. *)
Theorem truck_store_iff_free_pair (L N : nat) (g : Garage) (machine : Machine) :
  reachable L N g →
  kind machine = Truck →
  machineLocations g !! identifier machine = None →
  ((∃ g', storeMachine g machine = Some (true, g')) ↔ hasFreePair g) ∧
  (¬ hasFreePair g → storeMachine g machine = Some (false, g)) ∧
  (∀ g', storeMachine g machine = Some (true, g') →
     ∃ k j lvl lvl',
       levels g !! k = Some lvl ∧ freeRun (slotList lvl) j 2 ∧
       levels g' !! k = Some lvl' ∧
       ownedRun (slotList lvl') (identifier machine) j 2 ∧
       freeSlotsCount lvl' = freeSlotsCount lvl - 2 ∧
       ∀ k' j', ¬ (k' = k ∧ (j ≤ j' < j + 2)%nat) →
                slotOf (levels g') k' j' = slotOf (levels g) k' j').
Proof.
  intros Hinv%reachable_inv Hkind Hloc.
  assert (slotCount machine = 2%nat) as Hn.
  { unfold slotCount, slotsNeeded. by rewrite Hkind. }
  destruct (storeMachine_spec g machine (inv_indexed _ _ _ Hinv) Hloc)
    as [[H1 H2]|(k & j & lvl & (Hk & Hfree & _) & H3)]; rewrite Hn in *.
  - assert (¬ hasFreePair g) as Hno.
    { intros (k & lvl & j & Hk & Hfree). by destruct (H2 k lvl j Hk). }
    split; [|split]; [|done|].
    + split; [|done]. intros [g' Hg']. congruence.
    + intros g' Hg'. congruence.
  - assert (hasFreePair g) as Hyes by (by exists k, lvl, j).
    split; [|split]; [|done|].
    + split; [done|]. intros _. eauto.
    + intros g' Hg'. rewrite H3 in Hg'. simplify_eq.
      assert (k < length (levels g))%nat as Hklt by (by eapply lookup_lt_Some).
      exists k, j, lvl, (takeSlots lvl machine j).
      split; [done|]. split; [done|]. simpl.
      split; [by apply list_lookup_insert_eq|]. rewrite Hn. split; [|split].
      * intros i Hi. rewrite markFrom_lookup, decide_True by done.
        destruct (Hfree i Hi) as (s & -> & Hs).
        by exists (setOccupant (identifier machine) s).
      * rewrite !freeSlotsCount_countIf. unfold takeSlots. simpl. rewrite Hn.
        rewrite (countIf_markFrom isFree); [lia|done|].
        intros s Hs. unfold isFree. simpl. by rewrite Hs.
      * intros k' j' Hout. unfold slotOf.
        destruct (decide (k = k')) as [<-|Hne].
        -- rewrite list_lookup_insert_eq, Hk by done. simpl.
           rewrite Hn, markFrom_lookup, decide_False; [done|]. tauto.
        -- by rewrite list_lookup_insert_ne.
Qed.

Lemma truck_store_iff_free_pair_witness :
  reachable 1 2 (garageAfter 1 2 [Park carA1; Unpark "A1"]) ∧
  kind truckB1 = Truck ∧
  machineLocations (garageAfter 1 2 [Park carA1; Unpark "A1"]) !! identifier truckB1
  = None ∧
  ((∃ g', storeMachine (garageAfter 1 2 [Park carA1; Unpark "A1"]) truckB1
          = Some (true, g')) ↔
   hasFreePair (garageAfter 1 2 [Park carA1; Unpark "A1"])).
Proof.
  assert (reachable 1 2 (garageAfter 1 2 [Park carA1; Unpark "A1"])) as Hr.
  { exists [Park carA1; Unpark "A1"]. reflexivity. }
  split; [done|]. split; [reflexivity|]. split; [reflexivity|].
  by destruct (truck_store_iff_free_pair 1 2 _ truckB1 Hr eq_refl eq_refl)
    as (H & _).
Defined.

(** C2 as stated fails for an identifier that is parked already: the garage
    of one level of four slots holds the truck "B1" in the slots 0 and 1, the
    slots 2 and 3 are free and adjacent, and [storeMachine] of a truck "B1"
    returns [false]. *)
Lemma truck_store_fails_despite_free_pair :
  ¬ (∀ (L N : nat) (g : Garage) (machine : Machine),
       reachable L N g → kind machine = Truck →
       ((∃ g', storeMachine g machine = Some (true, g')) ↔ hasFreePair g)).
Proof.
  intros H.
  destruct (H 1%nat 4%nat (garageAfter 1 4 [Park truckB1]) truckB1) as [_ Hsucc].
  - exists [Park truckB1]. reflexivity.
  - reflexivity.
  - destruct Hsucc as [g' Hg'].
    + eexists 0%nat, _, 2%nat. split; [reflexivity|]. apply freeRun_2.
      eexists _, _. repeat split; reflexivity.
    + vm_compute in Hg'. discriminate.
Qed.

(** * Further properties of the code *)

(** ** Kinds and slots *)

(** The name printed for a kind is read back as that kind by the parser of
    [add_machine], and different kinds have different names. *)
Theorem kind_string_roundtrip (k : MachineKind) :
  parseKind (kindToString k) = k ∧
  ∀ k', kindToString k = kindToString k' → k = k'.
Proof.
  split; [by destruct k|]. intros k' H.
  apply (f_equal parseKind) in H. by destruct k, k'.
Qed.

(** A vacant slot is taken by [occupySlot]; the slot taken refuses a second
    occupant and keeps the first; [vacateSlot] gives the vacant slot back and
    refuses a slot that is free. *)
Theorem occupy_vacate_roundtrip (s : Slot) (id id' : string) :
  vacant s →
  occupySlot s id = (true, setOccupant id s) ∧
  occupySlot (setOccupant id s) id' = (false, setOccupant id s) ∧
  vacateSlot (setOccupant id s) = (true, s) ∧
  vacateSlot s = (false, s).
Proof.
  intros [Hf Hid]. split; [by apply occupySlot_free|]. split; [done|].
  unfold vacateSlot. rewrite Hf. simpl. split; [|done].
  destruct s as [a b c d]. simpl in *. by rewrite Hf, Hid.
Qed.

Lemma occupy_vacate_roundtrip_witness :
  vacant (newSlot 0 3) ∧
  occupySlot (newSlot 0 3) "A1" = (true, setOccupant "A1" (newSlot 0 3)) ∧
  vacateSlot (setOccupant "A1" (newSlot 0 3)) = (true, newSlot 0 3).
Proof.
  split; [done|].
  destruct (occupy_vacate_roundtrip (newSlot 0 3) "A1" "B1") as (H1 & _ & H2 & _);
    done.
Defined.

(** ** Levels *)

Lemma countIf_zero_iff P (sl : list Slot) :
  countIf P sl = 0 ↔ ∀ j s, sl !! j = Some s → P s = false.
Proof.
  split.
  - intros H%existsb_false_countIf j s Hs.
    destruct (P s) eqn:HP; [|done].
    assert (existsb P sl = true); [|congruence].
    apply existsb_exists. exists s. split; [|done].
    apply list_elem_of_In, list_elem_of_lookup. eauto.
  - intros H. apply countIf_zero. intros s [j Hj]%list_elem_of_lookup. eauto.
Qed.

Lemma countIf_full_iff P (sl : list Slot) :
  countIf P sl = Z.of_nat (length sl) ↔ ∀ j s, sl !! j = Some s → P s = true.
Proof.
  induction sl as [|a sl IH]; simpl.
  - split; [|done]. intros _ j s H. by rewrite lookup_nil in H.
  - pose proof (countIf_bounds P sl). split.
    + intros H1 [|j] s Hs; simplify_eq/=.
      * destruct (P s); [done|lia].
      * apply IH in Hs; [done|]. destruct (P a); lia.
    + intros H1. rewrite (H1 0%nat a eq_refl).
      assert (countIf P sl = Z.of_nat (length sl)); [|lia].
      apply IH. intros j s Hs. by apply (H1 (S j)).
Qed.

Lemma freeSlotsCount_zero_iff lvl :
  freeSlotsCount lvl = 0 ↔
  ∀ j s, slotList lvl !! j = Some s → isOccupied s = true.
Proof.
  rewrite freeSlotsCount_countIf, countIf_zero_iff. unfold isFree.
  split; intros H j s Hs; specialize (H j s Hs); by destruct (isOccupied s).
Qed.

(** [freeSlotsCount] lies between 0 and the number of slots of the level; it
    is 0 exactly when every slot is occupied and the number of slots exactly
    when every slot is free. *)
Theorem freeSlotsCount_range (lvl : Level) :
  0 ≤ freeSlotsCount lvl ≤ Z.of_nat (length (slotList lvl)) ∧
  (freeSlotsCount lvl = 0 ↔
   ∀ j s, slotList lvl !! j = Some s → isOccupied s = true) ∧
  (freeSlotsCount lvl = Z.of_nat (length (slotList lvl)) ↔
   ∀ j s, slotList lvl !! j = Some s → isOccupied s = false).
Proof.
  split; [rewrite freeSlotsCount_countIf; apply countIf_bounds|]. split.
  - apply freeSlotsCount_zero_iff.
  - rewrite freeSlotsCount_countIf, countIf_full_iff. unfold isFree.
    split; intros H j s Hs; specialize (H j s Hs); by destruct (isOccupied s).
Qed.

Lemma newLevel_clamp index totalSlots :
  newLevel index totalSlots = newLevel index (Z.of_nat (Z.to_nat totalSlots)).
Proof. unfold newLevel. by rewrite Nat2Z.id. Qed.

Lemma newLevel_slot (index : Z) (N j : nat) :
  (j < N)%nat →
  slotList (newLevel index (Z.of_nat N)) !! j = Some (newSlot index (Z.of_nat j)).
Proof.
  intros Hj. unfold newLevel. simpl.
  by rewrite Nat2Z.id, list_lookup_fmap, lookup_seq_lt.
Qed.

Lemma newLevel_indexed index totalSlots :
  indexed (slotList (newLevel index totalSlots)).
Proof.
  rewrite newLevel_clamp. intros j s [-> _]%newLevel_lookup. done.
Qed.

(** A level built for [totalSlots] slots has that many slots (none when
    [totalSlots] is not positive), all free and carrying their positions; it
    offers a machine the slots from 0 on when it has enough slots for it, and
    nothing otherwise. *)
Theorem newLevel_shape (index totalSlots : Z) (machine : Machine) :
  levelIndex (newLevel index totalSlots) = index ∧
  length (slotList (newLevel index totalSlots)) = Z.to_nat totalSlots ∧
  (∀ j s, slotList (newLevel index totalSlots) !! j = Some s ↔
          s = newSlot index (Z.of_nat j) ∧ (j < Z.to_nat totalSlots)%nat) ∧
  freeSlotsCount (newLevel index totalSlots) = Z.max 0 totalSlots ∧
  spotsAvailable (newLevel index totalSlots) machine
  = if slotsNeeded machine <=? totalSlots
    then indexRun 0 (slotCount machine) else [].
Proof.
  split; [done|]. rewrite newLevel_clamp.
  split; [apply newLevel_length|]. split; [|split].
  - intros j s. split; [apply newLevel_lookup|].
    intros [-> Hj]. by apply newLevel_slot.
  - rewrite newLevel_free. lia.
  - pose proof (slotCount_Z machine) as Hn.
    destruct (spotsAvailable_spec (newLevel index (Z.of_nat (Z.to_nat totalSlots)))
                machine (newLevel_indexed _ _)) as [[H1 H2]|(j & H1 & H2 & H3)].
    + rewrite H1. destruct (Z.leb_spec (slotsNeeded machine) totalSlots); [|done].
      destruct (H2 0%nat). intros i Hi. exists (newSlot index (Z.of_nat i)).
      split; [|done]. apply newLevel_slot. lia.
    + rewrite H1. destruct (slotCount_pos machine) as [n Hn'].
      rewrite Hn' in H2. apply freeRun_bound in H2.
      rewrite newLevel_length in H2.
      destruct (Z.leb_spec (slotsNeeded machine) totalSlots); [|lia].
      destruct j as [|j]; [done|]. destruct (H3 0%nat); [lia|].
      intros i Hi. exists (newSlot index (Z.of_nat i)).
      split; [|done]. apply newLevel_slot. lia.
Qed.

(** On every level, [spotsAvailable] returns nothing or as many indices as
    the machine needs slots, each the index of a free slot of the level; for
    a machine of one slot it returns nothing exactly when the level has no
    free slot. *)
Theorem spotsAvailable_result (lvl : Level) (machine : Machine) :
  (spotsAvailable lvl machine = [] ∨
   Z.of_nat (length (spotsAvailable lvl machine)) = slotsNeeded machine) ∧
  (∀ idx, idx ∈ spotsAvailable lvl machine →
          ∃ j s, slotList lvl !! j = Some s ∧ isOccupied s = false ∧
                 slotIndex s = idx) ∧
  (kind machine ≠ Truck →
   (spotsAvailable lvl machine = [] ↔ freeSlotsCount lvl = 0)).
Proof.
  unfold spotsAvailable.
  destruct (slotCount_cases machine) as [(Hn & _ & Hk)|(Hn & _ & Hk)];
    rewrite Hn; simpl.
  - destruct (firstFree_spec (slotList lvl)) as [[H1 H2]|(j & s & H1 & H2 & H3 & H4)].
    + rewrite H1. split; [by left|]. split.
      * intros idx H. by apply elem_of_nil in H.
      * intros _. split; [|done]. intros _.
        by apply freeSlotsCount_zero_iff.
    + rewrite H4. split; [by right|]. split.
      * intros idx ->%list_elem_of_singleton. eauto.
      * intros _. split; [done|]. intros H0.
        pose proof (proj1 (freeSlotsCount_zero_iff lvl) H0 _ _ H1). congruence.
  - split; [|split; [|done]];
      destruct (firstFreePair_spec (slotList lvl))
        as [[H1 H2]|(j & a & b & H1 & H2 & H3 & H4 & H5 & H6)].
    + by left.
    + rewrite H6. by right.
    + rewrite H1. intros idx H. by apply elem_of_nil in H.
    + rewrite H6. intros idx [->|[->|H]%elem_of_cons]%elem_of_cons; eauto.
      by apply elem_of_nil in H.
Qed.

Lemma spotsAvailable_result_witness :
  kind carA1 ≠ Truck ∧
  (spotsAvailable levelA carA1 = [] ↔ freeSlotsCount levelA = 0).
Proof.
  split; [done|].
  by destruct (spotsAvailable_result levelA carA1) as (_ & _ & H); apply H.
Defined.

(** On a level whose slots carry their positions, the slots that
    [spotsAvailable] returns are always accepted by [assignMachine]: it
    returns [true], the free count of the level drops by [slotsNeeded], and
    the slots returned are the ones now occupied by the machine. *)
Theorem assign_after_spotsAvailable (lvl : Level) (machine : Machine) :
  indexed (slotList lvl) →
  spotsAvailable lvl machine ≠ [] →
  ∃ lvl',
    assignMachine lvl machine (spotsAvailable lvl machine) = Some (true, lvl') ∧
    freeSlotsCount lvl' = freeSlotsCount lvl - slotsNeeded machine ∧
    (∀ j s, slotList lvl !! j = Some s →
            slotList lvl' !! j
            = Some (if decide (Z.of_nat j ∈ spotsAvailable lvl machine)
                    then setOccupant (identifier machine) s else s)).
Proof.
  intros Hidx Hne.
  destruct (spotsAvailable_spec lvl machine Hidx) as [[H1 _]|(j & H1 & H2 & _)];
    [done|].
  rewrite H1, (assignMachine_run _ _ _ _ H2). eexists. split; [done|]. split.
  - rewrite !freeSlotsCount_countIf. simpl.
    rewrite (countIf_markFrom isFree); [by rewrite slotCount_Z|done|].
    intros s Hs. unfold isFree. simpl. by rewrite Hs.
  - intros i s Hs. simpl. rewrite markFrom_lookup, Hs. simpl.
    destruct (decide (j ≤ i < j + slotCount machine)%nat) as [Hi|Hi].
    + rewrite decide_True; [done|]. by apply elem_of_indexRun.
    + rewrite decide_False; [done|]. by rewrite elem_of_indexRun.
Qed.

Lemma assign_after_spotsAvailable_witness :
  indexed (slotList levelA) ∧ spotsAvailable levelA truckB1 ≠ [] ∧
  ∃ lvl',
    assignMachine levelA truckB1 (spotsAvailable levelA truckB1) = Some (true, lvl') ∧
    freeSlotsCount lvl' = freeSlotsCount levelA - slotsNeeded truckB1.
Proof.
  assert (indexed (slotList levelA)) as Hidx.
  { intros [|[|[|j]]] s Hs; vm_compute in Hs; by simplify_eq. }
  split; [done|]. split; [done|].
  destruct (assign_after_spotsAvailable levelA truckB1 Hidx) as (lvl' & H1 & H2 & _);
    [done|].
  by exists lvl'.
Defined.

Lemma vacateOwned_notowned id s : ownedBy id (vacateOwned id s) = false.
Proof.
  unfold vacateOwned. destruct (ownedBy id s) eqn:H; [done|]. done.
Qed.

(** [removeMachine] returns [true] exactly when some slot of the level is
    occupied by the identifier.  It vacates every such slot (free, with the
    empty occupant) and keeps every other slot, so that afterwards no slot is
    occupied by the identifier and the free count has grown by the number of
    slots it held. *)
Theorem removeMachine_effect (lvl : Level) (id : string) :
  ((removeMachine lvl id).1 = true ↔
   ∃ j s, slotList lvl !! j = Some s ∧ isOccupied s = true ∧ occupantId s = id) ∧
  levelIndex (removeMachine lvl id).2 = levelIndex lvl ∧
  length (slotList (removeMachine lvl id).2) = length (slotList lvl) ∧
  (∀ j s, slotList lvl !! j = Some s →
          slotList (removeMachine lvl id).2 !! j
          = Some (if isOccupied s && bool_decide (occupantId s = id)
                  then mkSlot (slot_levelIndex s) (slotIndex s) false "" else s)) ∧
  (∀ j s, slotList (removeMachine lvl id).2 !! j = Some s →
          ¬ (isOccupied s = true ∧ occupantId s = id)) ∧
  freeSlotsCount (removeMachine lvl id).2
  = freeSlotsCount lvl + countIf (ownedBy id) (slotList lvl).
Proof.
  rewrite removeMachine_spec. simpl. split; [|split; [done|split; [|split; [|split]]]].
  - rewrite existsb_exists. split.
    + intros (s & [j Hj]%list_elem_of_In%list_elem_of_lookup & Hs%ownedBy_true).
      by exists j, s.
    + intros (j & s & Hj & Hs). exists s. split.
      * apply list_elem_of_In, list_elem_of_lookup. eauto.
      * by apply ownedBy_true.
  - apply length_fmap.
  - intros j s Hs. by rewrite list_lookup_fmap, Hs.
  - intros j s Hs. rewrite list_lookup_fmap in Hs.
    apply fmap_Some in Hs as (s0 & _ & ->). intros H%ownedBy_true.
    by rewrite vacateOwned_notowned in H.
  - rewrite !freeSlotsCount_countIf. simpl. apply countIf_free_vacate.
Qed.

(** A second [removeMachine] for the same identifier finds nothing: it
    returns [false] and leaves the level as the first one left it. *)
Theorem removeMachine_twice (lvl : Level) (id : string) :
  removeMachine (removeMachine lvl id).2 id = (false, (removeMachine lvl id).2).
Proof.
  rewrite !removeMachine_spec. simpl.
  assert (existsb (ownedBy id) (vacateOwned id <$> slotList lvl) = false) as Hno.
  { apply existsb_false_countIf, countIf_zero.
    intros s (s0 & -> & _)%list_elem_of_fmap. apply vacateOwned_notowned. }
  rewrite Hno. f_equal. f_equal.
  apply list_eq. intros j. rewrite !list_lookup_fmap.
  destruct (slotList lvl !! j) as [s|]; [|done]. simpl. f_equal.
  unfold vacateOwned at 1. by rewrite vacateOwned_notowned.
Qed.

(** ** The queries *)

Lemma slotOf_Some ls k j s :
  slotOf ls k j = Some s ↔ ∃ lvl, ls !! k = Some lvl ∧ slotList lvl !! j = Some s.
Proof. unfold slotOf. by rewrite bind_Some. Qed.

Lemma hasSpace_false ls :
  hasSpace ls = false ↔ ∀ k lvl, ls !! k = Some lvl → freeSlotsCount lvl = 0.
Proof.
  induction ls as [|lvl ls IH]; simpl.
  - split; [|done]. intros _ k lvl' H. by rewrite lookup_nil in H.
  - pose proof (countIf_bounds isFree (slotList lvl)) as Hb.
    rewrite <- freeSlotsCount_countIf in Hb.
    destruct (Z.ltb_spec 0 (freeSlotsCount lvl)) as [Hlt|Hge].
    + split; [done|]. intros H. specialize (H 0%nat lvl eq_refl). lia.
    + rewrite IH. split.
      * intros H [|k] lvl' Hk; simplify_eq/=; [lia|eauto].
      * intros H k lvl' Hk. by apply (H (S k)).
Qed.

Lemma checkIfFull_allOccupied g :
  checkIfFull g = true ↔ allOccupied (levels g).
Proof.
  unfold checkIfFull. rewrite negb_true_iff, hasSpace_false. split.
  - intros H k j s (lvl & Hk & Hs)%slotOf_Some.
    by apply (proj1 (freeSlotsCount_zero_iff lvl) (H _ _ Hk) j).
  - intros H k lvl Hk. apply freeSlotsCount_zero_iff. intros j s Hs.
    apply (H k j). apply slotOf_Some. eauto.
Qed.

Lemma totalFree_zero g :
  totalFree g = 0 ↔ ∀ k lvl, levels g !! k = Some lvl → freeSlotsCount lvl = 0.
Proof.
  unfold totalFree. induction (levels g) as [|lvl ls IH]; simpl.
  - split; [|done]. intros _ k lvl H. by rewrite lookup_nil in H.
  - pose proof (countIf_bounds isFree (slotList lvl)) as Hb.
    rewrite <- freeSlotsCount_countIf in Hb.
    assert (0 ≤ foldr (λ lvl acc, freeSlotsCount lvl + acc) 0 ls) as Hpos.
    { clear. induction ls as [|a ls IH]; simpl; [lia|].
      pose proof (countIf_bounds isFree (slotList a)) as Hb.
      rewrite <- freeSlotsCount_countIf in Hb. lia. }
    split.
    + intros H [|k] lvl' Hk; simplify_eq/=; [lia|].
      apply (proj1 IH ltac:(lia) k lvl' Hk).
    + intros H. pose proof (H 0%nat lvl eq_refl).
      assert (foldr (λ lvl acc, freeSlotsCount lvl + acc) 0 ls = 0); [|lia].
      apply IH. intros k lvl' Hk. by apply (H (S k)).
Qed.

(** [checkIfFull] says "completely full" exactly when every slot of every
    level is occupied, that is when the free counts that
    [checkAvailability] prints are all 0 (a garage without levels or without
    slots is full). *)
Theorem checkIfFull_iff (g : Garage) :
  (checkIfFull g = true ↔ allOccupied (levels g)) ∧
  (checkIfFull g = true ↔ totalFree g = 0) ∧
  (checkIfFull g = true ↔
   ∀ k line, checkAvailability g !! k = Some line → line.2 = 0).
Proof.
  split; [apply checkIfFull_allOccupied|]. split.
  - unfold checkIfFull. by rewrite negb_true_iff, hasSpace_false, totalFree_zero.
  - unfold checkIfFull, checkAvailability.
    rewrite negb_true_iff, hasSpace_false. split.
    + intros H k line Hk. rewrite list_lookup_fmap in Hk.
      apply fmap_Some in Hk as (lvl & Hl & ->). simpl. eauto.
    + intros H k lvl Hk.
      apply (H k (levelIndex lvl, freeSlotsCount lvl)).
      by rewrite list_lookup_fmap, Hk.
Qed.

Lemma spotsAvailable_occupied lvl machine :
  (∀ j s, slotList lvl !! j = Some s → isOccupied s = true) →
  spotsAvailable lvl machine = [].
Proof.
  intros Hocc. unfold spotsAvailable. destruct (slotsNeeded machine =? 1).
  - destruct (firstFree_spec (slotList lvl)) as [[H _]|(j & s & H1 & H2 & _)];
      [done|]. specialize (Hocc _ _ H1). congruence.
  - destruct (firstFreePair_spec (slotList lvl))
      as [[H _]|(j & a & b & H1 & _ & H2 & _)]; [done|].
    specialize (Hocc _ _ H1). congruence.
Qed.

Lemma storeLoop_no_spots ls machine :
  (∀ k lvl, ls !! k = Some lvl → spotsAvailable lvl machine = []) →
  storeLoop ls machine = Some (None, ls).
Proof.
  induction ls as [|lvl ls IH]; intros H; [done|].
  rewrite storeLoop_cons, (H 0%nat lvl eq_refl), IH; [done|].
  intros k lvl' Hk. by apply (H (S k)).
Qed.

(** When [checkIfFull] says "completely full", [storeMachine] fails for every
    machine and leaves the garage unchanged. *)
Theorem full_garage_rejects (g : Garage) (machine : Machine) :
  checkIfFull g = true → storeMachine g machine = Some (false, g).
Proof.
  intros Hfull%checkIfFull_allOccupied. unfold storeMachine.
  destruct (machineLocations g !! identifier machine); [done|].
  rewrite storeLoop_no_spots; [by destruct g|].
  intros k lvl Hk. apply spotsAvailable_occupied. intros j s Hs.
  apply (Hfull k j). apply slotOf_Some. eauto.
Qed.

Lemma full_garage_rejects_witness :
  checkIfFull (garageAfter 1 2 [Park truckB1]) = true ∧
  storeMachine (garageAfter 1 2 [Park truckB1]) bikeX
  = Some (false, garageAfter 1 2 [Park truckB1]).
Proof. split; [reflexivity|]. apply full_garage_rejects. reflexivity. Defined.

(** In a reachable garage, a machine of one slot (a [Bike] or a [Car]) whose
    identifier is not parked is stored exactly when [checkIfFull] does not
    say "completely full". *)
Theorem one_slot_store_iff_not_full (L N : nat) (g : Garage) (machine : Machine) :
  reachable L N g →
  kind machine ≠ Truck →
  machineLocations g !! identifier machine = None →
  ((∃ g', storeMachine g machine = Some (true, g')) ↔ checkIfFull g = false).
Proof.
  intros Hinv%reachable_inv Hkind Hloc.
  assert (slotCount machine = 1%nat) as Hn.
  { by destruct (slotCount_cases machine) as [(_ & ? & _)|(_ & _ & ?)]. }
  destruct (storeMachine_spec g machine (inv_indexed _ _ _ Hinv) Hloc)
    as [[H1 H2]|(k & j & lvl & (Hk & Hfree & _) & H3)]; rewrite Hn in *.
  - assert (checkIfFull g = true) as ->.
    { apply checkIfFull_allOccupied. intros k j s (lvl & Hk & Hs)%slotOf_Some.
      destruct (isOccupied s) eqn:Hocc; [done|].
      destruct (H2 k lvl j Hk). apply freeRun_1. eauto. }
    split; [|done]. intros [g' Hg']. congruence.
  - split; [|eauto]. intros _.
    destruct (checkIfFull g) eqn:Hfull; [|done].
    apply checkIfFull_allOccupied in Hfull.
    apply freeRun_1 in Hfree as (s & Hs & Hf).
    rewrite (Hfull k j s) in Hf; [done|]. apply slotOf_Some. eauto.
Qed.

Lemma one_slot_store_iff_not_full_witness :
  reachable 2 1 (garageAfter 2 1 [Park bikeX]) ∧ kind bikeY ≠ Truck ∧
  machineLocations (garageAfter 2 1 [Park bikeX]) !! identifier bikeY = None ∧
  ((∃ g', storeMachine (garageAfter 2 1 [Park bikeX]) bikeY = Some (true, g')) ↔
   checkIfFull (garageAfter 2 1 [Park bikeX]) = false).
Proof.
  assert (reachable 2 1 (garageAfter 2 1 [Park bikeX])) as Hr.
  { exists [Park bikeX]. reflexivity. }
  split; [done|]. split; [done|]. split; [reflexivity|].
  by apply (one_slot_store_iff_not_full 2 1 _ bikeY Hr).
Defined.

(** A new garage is "completely full" exactly when it was built without
    levels or without slots (a count that is not positive). *)
Theorem newGarage_full_iff (totalLevels slotsEach : Z) :
  checkIfFull (newGarage totalLevels slotsEach) = true ↔
  totalLevels ≤ 0 ∨ slotsEach ≤ 0.
Proof.
  rewrite checkIfFull_allOccupied, newGarage_clamp. split.
  - intros H. destruct (Z.le_gt_cases totalLevels 0) as [|HL]; [by left|].
    destruct (Z.le_gt_cases slotsEach 0) as [|HN]; [by right|].
    specialize (H 0%nat 0%nat (newSlot 0 0)). simpl in H.
    assert (false = true); [|done]. apply H. apply slotOf_Some.
    exists (newLevel 0 (Z.of_nat (Z.to_nat slotsEach))). split.
    + unfold newGarage. simpl.
      rewrite Nat2Z.id, list_lookup_fmap, lookup_seq_lt by lia. done.
    + apply (newLevel_slot 0 _ 0). lia.
  - intros Hzero k j s (lvl & [-> Hk]%newGarage_lookup & [-> Hj]%newLevel_lookup)%slotOf_Some.
    lia.
Qed.

Lemma checkAvailability_sum g :
  foldr (λ (line : Z * Z) acc, line.2 + acc) 0 (checkAvailability g) = totalFree g.
Proof.
  unfold checkAvailability, totalFree.
  induction (levels g) as [|lvl ls IH]; [done|].
  rewrite fmap_cons. cbn [foldr]. by rewrite IH.
Qed.

(** In a garage reached from a new one of [L] levels of [N] slots,
    [checkAvailability] prints one line per level, in the order of the
    levels, each with the index of its level and a free count between 0 and
    [N]; the counts add up to [L * N] minus the slots of the parked
    machines. *)
Theorem checkAvailability_report (L N : nat) (g : Garage) :
  reachable L N g →
  length (checkAvailability g) = L ∧
  (∀ k lv c, checkAvailability g !! k = Some (lv, c) →
             lv = Z.of_nat k ∧ 0 ≤ c ≤ Z.of_nat N) ∧
  foldr (λ (line : Z * Z) acc, line.2 + acc) 0 (checkAvailability g)
  = Z.of_nat L * Z.of_nat N - parkedSlots g.
Proof.
  intros Hinv%reachable_inv. split; [|split].
  - unfold checkAvailability. rewrite length_fmap.
    apply (lo_length _ _ _ (gi_levels _ _ _ Hinv)).
  - intros k lv c H. unfold checkAvailability in H.
    rewrite list_lookup_fmap in H. apply fmap_Some in H as (lvl & Hk & Heq).
    simplify_eq.
    destruct (lo_level _ _ _ (gi_levels _ _ _ Hinv) _ _ Hk) as [-> <-].
    split; [done|]. rewrite freeSlotsCount_countIf. apply countIf_bounds.
  - rewrite checkAvailability_sum. pose proof (gi_total _ _ _ Hinv). lia.
Qed.

Lemma checkAvailability_report_witness :
  reachable 2 1 (garageAfter 2 1 [Park bikeX]) ∧
  checkAvailability (garageAfter 2 1 [Park bikeX]) = [(0, 0); (1, 1)] ∧
  length (checkAvailability (garageAfter 2 1 [Park bikeX])) = 2%nat.
Proof.
  assert (reachable 2 1 (garageAfter 2 1 [Park bikeX])) as Hr.
  { exists [Park bikeX]. reflexivity. }
  split; [done|]. split; [reflexivity|].
  by destruct (checkAvailability_report 2 1 _ Hr) as (H & _).
Defined.

(** In a reachable garage [locateMachine] changes nothing (the catalog holds
    a machine for every located identifier, so that none is added); it
    reports nothing for an identifier that is not parked, and for a parked
    one the kind of the machine that was stored, with the level and the
    slots of its location record. *)
Theorem locateMachine_report (L N : nat) (g : Garage) (id : string) :
  reachable L N g →
  (locateMachine g id).2 = g ∧
  match machineLocations g !! id with
  | None => (locateMachine g id).1 = None
  | Some (whichLevel, slotIndices) =>
      ∃ machine, machineCatalog g !! id = Some machine ∧
                 identifier machine = id ∧
                 (locateMachine g id).1
                 = Some (kindToString (kind machine), whichLevel, slotIndices)
  end.
Proof.
  intros Hinv%reachable_inv. unfold locateMachine.
  destruct (machineLocations g !! id) as [[w idxs]|] eqn:Hloc; [|done].
  destruct (gi_location _ _ _ Hinv _ _ _ Hloc) as (m & _ & _ & _ & Hcat & Hid & _).
  rewrite Hcat. simpl. split; [by destruct g|]. by exists m.
Qed.

Lemma locateMachine_report_witness :
  reachable 1 2 (garageAfter 1 2 [Park truckB1]) ∧
  locateMachine (garageAfter 1 2 [Park truckB1]) "B1"
  = (Some ("Truck", 0, [0; 1]), garageAfter 1 2 [Park truckB1]) ∧
  (locateMachine (garageAfter 1 2 [Park truckB1]) "B1").2
  = garageAfter 1 2 [Park truckB1].
Proof.
  assert (reachable 1 2 (garageAfter 1 2 [Park truckB1])) as Hr.
  { exists [Park truckB1]. reflexivity. }
  split; [done|]. split; [reflexivity|].
  by destruct (locateMachine_report 1 2 _ "B1" Hr) as (H & _).
Defined.

(** ** Location records *)

(** In a reachable garage a location record names a level of the garage and
    as many slots as the machine of the catalog needs: one slot, or two
    slots next to each other, inside the level; the machine of the catalog
    carries the identifier it is filed under. *)
Theorem location_record_shape (L N : nat) (g : Garage) (id : string)
    (whichLevel : Z) (slotIndices : list Z) :
  reachable L N g →
  machineLocations g !! id = Some (whichLevel, slotIndices) →
  ∃ machine (j : nat),
    machineCatalog g !! id = Some machine ∧ identifier machine = id ∧
    0 ≤ whichLevel < Z.of_nat L ∧
    slotIndices = match kind machine with
                  | Truck => [Z.of_nat j; Z.of_nat j + 1]
                  | Bike | Car => [Z.of_nat j]
                  end ∧
    Z.of_nat j + slotsNeeded machine ≤ Z.of_nat N.
Proof.
  intros Hinv%reachable_inv Hloc.
  destruct (gi_location _ _ _ Hinv _ _ _ Hloc)
    as (m & k & j & lvl & H1 & H2 & -> & -> & H5 & H6 & _).
  exists m, j. split; [done|]. split; [done|].
  pose proof (lookup_lt_Some _ _ _ H5) as Hk.
  rewrite (lo_length _ _ _ (gi_levels _ _ _ Hinv)) in Hk.
  split; [lia|]. split.
  - unfold indexRun, slotCount, slotsNeeded.
    destruct (kind m); simpl; try done. by rewrite Nat2Z.inj_succ.
  - destruct (lo_level _ _ _ (gi_levels _ _ _ Hinv) _ _ H5) as [_ HN].
    rewrite <- slotCount_Z. destruct (slotCount_pos m) as [n Hn].
    rewrite Hn in *.
    destruct (H6 (j + n)%nat) as (s & Hs%lookup_lt_Some & _); lia.
Qed.

Lemma location_record_shape_witness :
  reachable 1 4 (garageAfter 1 4 [Park carA1; Park truckB1]) ∧
  machineLocations (garageAfter 1 4 [Park carA1; Park truckB1]) !! "B1"
  = Some (0, [1; 2]) ∧
  ∃ machine (j : nat),
    machineCatalog (garageAfter 1 4 [Park carA1; Park truckB1]) !! "B1"
    = Some machine ∧ identifier machine = "B1" ∧ 0 ≤ 0 < Z.of_nat 1 ∧
    [1; 2] = match kind machine with
             | Truck => [Z.of_nat j; Z.of_nat j + 1]
             | Bike | Car => [Z.of_nat j]
             end ∧
    Z.of_nat j + slotsNeeded machine ≤ Z.of_nat 4.
Proof.
  assert (reachable 1 4 (garageAfter 1 4 [Park carA1; Park truckB1])) as Hr.
  { exists [Park carA1; Park truckB1]. reflexivity. }
  split; [done|]. split; [reflexivity|].
  apply (location_record_shape 1 4 _ "B1" 0 [1; 2] Hr). reflexivity.
Defined.

Lemma parkedSlots_size (cat : gmap string Machine) :
  Z.of_nat (size cat) ≤ map_fold (λ _ machine acc, slotsNeeded machine + acc) 0 cat.
Proof.
  induction cat as [|id m cat Hnone IH] using map_ind.
  - by rewrite map_fold_empty, map_size_empty.
  - rewrite map_fold_insert_L; [|intros; lia|done].
    rewrite map_size_insert_None by done.
    pose proof (slotsNeeded_pos m). lia.
Qed.

(** A reachable garage of [L] levels of [N] slots never holds more machines
    than it has slots: the two maps have the same number of entries, at most
    [L * N], and the slots the parked machines need are at most [L * N]. *)
Theorem garage_capacity (L N : nat) (g : Garage) :
  reachable L N g →
  size (machineLocations g) = size (machineCatalog g) ∧
  Z.of_nat (size (machineCatalog g)) ≤ parkedSlots g ∧
  parkedSlots g ≤ Z.of_nat L * Z.of_nat N ∧
  0 ≤ totalFree g ≤ Z.of_nat L * Z.of_nat N.
Proof.
  intros Hinv%reachable_inv.
  assert (0 ≤ totalFree g) as Hpos.
  { unfold totalFree. induction (levels g) as [|a ls IH]; simpl; [lia|].
    pose proof (countIf_bounds isFree (slotList a)) as Hb.
    rewrite <- freeSlotsCount_countIf in Hb. lia. }
  pose proof (parkedSlots_size (machineCatalog g)) as Hsize.
  pose proof (gi_total _ _ _ Hinv) as Htot. unfold parkedSlots in *.
  split; [|lia].
  rewrite <- (size_dom (D := gset string) (machineLocations g)).
  rewrite <- (size_dom (D := gset string) (machineCatalog g)).
  f_equal. apply set_eq. intros id. rewrite !elem_of_dom.
  destruct (inv_consistent _ _ _ Hinv) as (H & _). apply H.
Qed.

Lemma garage_capacity_witness :
  reachable 2 1 (garageAfter 2 1 [Park bikeX; Park bikeY; Park bikeZ]) ∧
  Z.of_nat (size (machineCatalog (garageAfter 2 1 [Park bikeX; Park bikeY; Park bikeZ])))
  ≤ Z.of_nat 2 * Z.of_nat 1.
Proof.
  assert (reachable 2 1 (garageAfter 2 1 [Park bikeX; Park bikeY; Park bikeZ])) as Hr.
  { exists [Park bikeX; Park bikeY; Park bikeZ]. reflexivity. }
  split; [done|].
  destruct (garage_capacity 2 1 _ Hr) as (_ & H1 & H2 & _). lia.
Defined.

(** ** What [storeMachine] leaves alone *)

Lemma occupySlot_occupied_keeps s id :
  isOccupied s = true → (occupySlot s id).2 = s.
Proof. intros H. unfold occupySlot. by rewrite H. Qed.

Lemma occupyAll_keeps_occupied sl id idxs sl' :
  occupyAll sl id idxs = Some sl' →
  length sl' = length sl ∧
  ∀ j s, sl !! j = Some s → isOccupied s = true → sl' !! j = Some s.
Proof.
  revert sl. induction idxs as [|idx rest IH]; intros sl H; simpl in H.
  - by simplify_eq.
  - destruct (slotAt sl idx) as [s0|] eqn:Hs0; [|done]. simpl in H.
    apply slotAt_Some in Hs0 as [_ Hs0].
    destruct (IH _ H) as [Hlen Hkeep]. rewrite length_insert in Hlen.
    split; [done|]. intros j s Hs Hocc. apply Hkeep; [|done].
    destruct (decide (Z.to_nat idx = j)) as [<-|Hne].
    + rewrite list_lookup_insert_eq by (by eapply lookup_lt_Some).
      simplify_eq. by rewrite occupySlot_occupied_keeps.
    + by rewrite list_lookup_insert_ne.
Qed.

Lemma assignMachine_keeps_occupied lvl machine idxs r lvl' :
  assignMachine lvl machine idxs = Some (r, lvl') →
  levelIndex lvl' = levelIndex lvl ∧
  length (slotList lvl') = length (slotList lvl) ∧
  ∀ j s, slotList lvl !! j = Some s → isOccupied s = true →
         slotList lvl' !! j = Some s.
Proof.
  unfold assignMachine. destruct (allFree _ _) as [[|]|]; simpl; [| |done].
  - destruct (occupyAll _ _ _) as [sl'|] eqn:E; simpl; [|done].
    intros H. simplify_eq. simpl.
    destruct (occupyAll_keeps_occupied _ _ _ _ E). done.
  - intros H. by simplify_eq.
Qed.

Lemma storeLoop_keeps_occupied ls machine found ls' :
  storeLoop ls machine = Some (found, ls') →
  length ls' = length ls ∧
  ∀ k j s, slotOf ls k j = Some s → isOccupied s = true →
           slotOf ls' k j = Some s.
Proof.
  revert found ls'. induction ls as [|lvl rest IH]; intros found ls' H.
  - simpl in H. by simplify_eq.
  - rewrite storeLoop_cons in H.
    assert (∀ lvl0 found0 rest0,
      (∀ j s, slotList lvl !! j = Some s → isOccupied s = true →
              slotList lvl0 !! j = Some s) →
      storeLoop rest machine = Some (found0, rest0) →
      length (lvl0 :: rest0) = length (lvl :: rest) ∧
      ∀ k j s, slotOf (lvl :: rest) k j = Some s → isOccupied s = true →
               slotOf (lvl0 :: rest0) k j = Some s) as Hcont.
    { intros lvl0 found0 rest0 Hl0 Hrest.
      destruct (IH _ _ Hrest) as [Hlen Hkeep]. split; [simpl; lia|].
      intros [|k] j s Hs Hocc.
      - unfold slotOf in *. simpl in *. by apply Hl0.
      - unfold slotOf in *. simpl in *. by apply Hkeep. }
    destruct (spotsAvailable lvl machine) as [|z zs].
    + destruct (storeLoop rest machine) as [[found0 rest0]|] eqn:E; [|done].
      simpl in H. simplify_eq. by eapply Hcont.
    + destruct (assignMachine lvl machine (z :: zs)) as [[ok lvl0]|] eqn:Ea;
        [|done].
      destruct (assignMachine_keeps_occupied _ _ _ _ _ Ea) as (_ & _ & Hl0).
      simpl in H. destruct ok.
      * simplify_eq. split; [done|]. intros [|k] j s Hs Hocc.
        -- unfold slotOf in *. simpl in *. by apply Hl0.
        -- done.
      * destruct (storeLoop rest machine) as [[found0 rest0]|] eqn:E; [|done].
        simpl in H. simplify_eq. by eapply Hcont.
Qed.

(** Whatever the garage, [storeMachine] never touches an occupied slot and
    never changes the location record or the catalog entry of another
    identifier; the number of levels stays the same. *)
Theorem store_leaves_others (g g' : Garage) (machine : Machine) (r : bool) :
  storeMachine g machine = Some (r, g') →
  length (levels g') = length (levels g) ∧
  (∀ k j s, slotOf (levels g) k j = Some s → isOccupied s = true →
            slotOf (levels g') k j = Some s) ∧
  (∀ id, id ≠ identifier machine →
         machineLocations g' !! id = machineLocations g !! id ∧
         machineCatalog g' !! id = machineCatalog g !! id).
Proof.
  unfold storeMachine. destruct (machineLocations g !! identifier machine).
  { intros H. by simplify_eq. }
  destruct (storeLoop (levels g) machine) as [[found ls']|] eqn:E; [|done].
  destruct (storeLoop_keeps_occupied _ _ _ _ E) as [Hlen Hkeep].
  simpl. destruct found as [loc|]; intros H; simplify_eq; simpl.
  - split; [done|]. split; [done|]. intros id Hne.
    by rewrite !lookup_insert_ne.
  - done.
Qed.

Lemma store_leaves_others_witness :
  storeMachine (garageAfter 1 4 [Park carA1]) truckB1
  = Some (true, garageAfter 1 4 [Park carA1; Park truckB1]) ∧
  machineLocations (garageAfter 1 4 [Park carA1; Park truckB1]) !! "A1"
  = machineLocations (garageAfter 1 4 [Park carA1]) !! "A1".
Proof.
  split; [reflexivity|].
  destruct (store_leaves_others (garageAfter 1 4 [Park carA1])
              (garageAfter 1 4 [Park carA1; Park truckB1]) truckB1 true eq_refl)
    as (_ & _ & H).
  by apply H.
Defined.

(** Whatever the garage, after a successful [storeMachine] the identifier
    was not parked before, it has a location record and the catalog holds
    the machine; a second [storeMachine] with the same identifier (of any
    kind) fails and changes nothing, and [locateMachine] reports the kind of
    the machine with the location that was recorded. *)
Theorem store_then_store_again (g g' : Garage) (machine machine' : Machine) :
  storeMachine g machine = Some (true, g') →
  identifier machine' = identifier machine →
  machineLocations g !! identifier machine = None ∧
  machineCatalog g' !! identifier machine = Some machine ∧
  storeMachine g' machine' = Some (false, g') ∧
  ∃ whichLevel slotIndices,
    machineLocations g' !! identifier machine = Some (whichLevel, slotIndices) ∧
    locateMachine g' (identifier machine)
    = (Some (kindToString (kind machine), whichLevel, slotIndices), g').
Proof.
  intros Hstore Hid. unfold storeMachine in Hstore.
  destruct (machineLocations g !! identifier machine) eqn:Hloc; [by simplify_eq|].
  destruct (storeLoop (levels g) machine) as [[[[w idxs]|] ls']|]; simplify_eq/=.
  split; [done|]. split; [by rewrite lookup_insert_eq|]. split.
  - apply storeMachine_parked. simpl. rewrite Hid, lookup_insert_eq. by eexists.
  - exists w, idxs. split; [by rewrite lookup_insert_eq|].
    unfold locateMachine. simpl. by rewrite !lookup_insert_eq.
Qed.

Lemma store_then_store_again_witness :
  storeMachine (newGarage 1 2) carA1 = Some (true, garageAfter 1 2 [Park carA1]) ∧
  identifier (mkMachine "A1" Truck) = identifier carA1 ∧
  storeMachine (garageAfter 1 2 [Park carA1]) (mkMachine "A1" Truck)
  = Some (false, garageAfter 1 2 [Park carA1]).
Proof.
  split; [reflexivity|]. split; [reflexivity|].
  by destruct (store_then_store_again (newGarage 1 2) (garageAfter 1 2 [Park carA1])
                 carA1 (mkMachine "A1" Truck) eq_refl eq_refl) as (_ & _ & H & _).
Defined.

(** ** [unparkMachine] *)

Lemma vacateOwned_unfold id s :
  vacateOwned id s
  = if isOccupied s && bool_decide (occupantId s = id)
    then mkSlot (slot_levelIndex s) (slotIndex s) false "" else s.
Proof. done. Qed.

(** In a reachable garage [unparkMachine] succeeds exactly for the
    identifiers that have a location record (the [return false] after
    [removeMachine] is never taken).  A successful call erases the identifier
    from both maps, vacates every slot it occupied and no other slot, and
    raises the total of free slots by the [slotsNeeded] of the machine. *)
Theorem unpark_succeeds_iff_parked (L N : nat) (g : Garage) (id : string) :
  reachable L N g →
  ((∃ g', unparkMachine g id = Some (true, g')) ↔
   is_Some (machineLocations g !! id)) ∧
  (∀ g', unparkMachine g id = Some (true, g') →
     ∃ machine,
       machineCatalog g !! id = Some machine ∧
       machineLocations g' = delete id (machineLocations g) ∧
       machineCatalog g' = delete id (machineCatalog g) ∧
       (∀ k j s, slotOf (levels g) k j = Some s →
                 slotOf (levels g') k j
                 = Some (if isOccupied s && bool_decide (occupantId s = id)
                         then mkSlot (slot_levelIndex s) (slotIndex s) false ""
                         else s)) ∧
       totalFree g' = totalFree g + slotsNeeded machine).
Proof.
  intros Hinv%reachable_inv.
  destruct (machineLocations g !! id) as [[w idxs]|] eqn:Hloc.
  - destruct (unparkMachine_spec _ _ _ _ _ _ Hinv Hloc)
      as (m & k & j & lvl & Hcat & Hid & -> & _ & Hk & _ & Hcount & Hun).
    split; [split; eauto|]. intros g' Hg'. rewrite Hun in Hg'. simplify_eq.
    exists m. split; [done|]. split; [done|]. split; [done|]. split.
    + intros k' j' s (lvl' & Hk' & Hs)%slotOf_Some.
      rewrite <- vacateOwned_unfold. apply slotOf_Some. simpl.
      destruct (decide (k = k')) as [<-|Hne].
      * exists (dropSlots lvl (identifier m)).
        rewrite list_lookup_insert_eq by (by eapply lookup_lt_Some).
        split; [done|]. simplify_eq. simpl. by rewrite list_lookup_fmap, Hs.
      * exists lvl'. rewrite list_lookup_insert_ne by done. split; [done|].
        unfold vacateOwned.
        destruct (ownedBy (identifier m) s) eqn:Hown; [|done].
        apply ownedBy_true in Hown as [Hocc Hown].
        destruct (gi_owner _ _ _ Hinv k' j' s) as (idxs' & Hl & _); [|done|].
        { apply slotOf_Some. eauto. }
        rewrite Hown, Hloc in Hl. simplify_eq.
    + unfold unparkAt. rewrite (totalFree_insert _ _ _ _ _ _ Hk).
      rewrite !freeSlotsCount_countIf. simpl. rewrite countIf_free_vacate.
      change (totalFree (mkGarage (levels g) ?a ?b)) with (totalFree g). lia.
  - rewrite (unparkMachine_absent _ _ Hloc). split.
    + split; [intros [g' H]; congruence|intros [x H]; congruence].
    + intros g' H. congruence.
Qed.

Lemma unpark_succeeds_iff_parked_witness :
  reachable 1 2 (garageAfter 1 2 [Park carA1]) ∧
  unparkMachine (garageAfter 1 2 [Park carA1]) "A1"
  = Some (true, garageAfter 1 2 [Park carA1; Unpark "A1"]) ∧
  ((∃ g', unparkMachine (garageAfter 1 2 [Park carA1]) "A1" = Some (true, g')) ↔
   is_Some (machineLocations (garageAfter 1 2 [Park carA1]) !! "A1")).
Proof.
  assert (reachable 1 2 (garageAfter 1 2 [Park carA1])) as Hr.
  { exists [Park carA1]. reflexivity. }
  split; [done|]. split; [reflexivity|].
  by destruct (unpark_succeeds_iff_parked 1 2 _ "A1" Hr) as (H & _).
Defined.

(** Whatever the garage, after a successful [unparkMachine] the identifier
    is in neither map, [locateMachine] does not find it, and a second
    [unparkMachine] fails and changes nothing. *)
Theorem unpark_then_unpark_again (g g' : Garage) (id : string) :
  unparkMachine g id = Some (true, g') →
  machineLocations g' !! id = None ∧
  machineCatalog g' !! id = None ∧
  locateMachine g' id = (None, g') ∧
  unparkMachine g' id = Some (false, g').
Proof.
  intros H. unfold unparkMachine in H.
  destruct (machineLocations g !! id) as [[w idxs]|]; [|by simplify_eq].
  destruct (levelAt (levels g) w) as [lvl|]; [|done]. simpl in H.
  destruct (removeMachine lvl id) as [[|] lvl']; simplify_eq. simpl.
  assert (delete id (machineLocations g) !! id = None) as Hnone
    by apply lookup_delete_eq.
  split; [done|]. split; [apply lookup_delete_eq|]. split.
  - unfold locateMachine. simpl. by rewrite Hnone.
  - by apply unparkMachine_absent.
Qed.

Lemma unpark_then_unpark_again_witness :
  unparkMachine (garageAfter 1 2 [Park carA1]) "A1" = Some (true, newGarage 1 2) ∧
  locateMachine (newGarage 1 2) "A1" = (None, newGarage 1 2) ∧
  unparkMachine (newGarage 1 2) "A1" = Some (false, newGarage 1 2).
Proof.
  split; [reflexivity|].
  by destruct (unpark_then_unpark_again (garageAfter 1 2 [Park carA1])
                 (newGarage 1 2) "A1" eq_refl) as (_ & _ & H1 & H2).
Defined.

(** In a reachable garage, the machine that [unparkMachine] has just removed
    can always be stored again: the slots it gave up are a run of free slots
    of the length it needs. *)
Theorem unpark_then_store_succeeds (L N : nat) (g g' : Garage) (machine : Machine) :
  reachable L N g →
  machineCatalog g !! identifier machine = Some machine →
  unparkMachine g (identifier machine) = Some (true, g') →
  ∃ g'', storeMachine g' machine = Some (true, g'').
Proof.
  intros Hinv%reachable_inv Hcat Hun.
  destruct (machineLocations g !! identifier machine) as [[w idxs]|] eqn:Hloc.
  2: { rewrite (unparkMachine_absent _ _ Hloc) in Hun. congruence. }
  destruct (unparkMachine_spec _ _ _ _ _ _ Hinv Hloc)
    as (m & k & j & lvl & Hcat' & _ & -> & _ & Hk & Hrun & Hcount & Hun').
  rewrite Hun' in Hun. simplify_eq.
  pose proof (unparkAt_inv _ _ _ _ _ _ _ _ Hinv Hloc Hcat Hk Hcount) as Hinv'.
  destruct (storeMachine_spec (unparkAt g (identifier machine) k lvl) machine
              (inv_indexed _ _ _ Hinv'))
    as [[_ Hno]|(k' & j' & lvl' & _ & Hst)]; [apply lookup_delete_eq| |eauto].
  destruct (Hno k (dropSlots lvl (identifier machine)) j).
  - simpl. apply list_lookup_insert_eq. by eapply lookup_lt_Some.
  - intros i Hi. destruct (Hrun i Hi) as (s & Hs & Hocc & Hid).
    exists (vacateOwned (identifier machine) s). simpl.
    rewrite list_lookup_fmap, Hs. split; [done|].
    unfold vacateOwned.
    by assert (ownedBy (identifier machine) s = true) as ->
      by (by apply ownedBy_true).
Qed.

Lemma unpark_then_store_succeeds_witness :
  reachable 1 2 (garageAfter 1 2 [Park truckB1]) ∧
  machineCatalog (garageAfter 1 2 [Park truckB1]) !! identifier truckB1
  = Some truckB1 ∧
  unparkMachine (garageAfter 1 2 [Park truckB1]) (identifier truckB1)
  = Some (true, newGarage 1 2) ∧
  ∃ g'', storeMachine (newGarage 1 2) truckB1 = Some (true, g'').
Proof.
  assert (reachable 1 2 (garageAfter 1 2 [Park truckB1])) as Hr.
  { exists [Park truckB1]. reflexivity. }
  split; [done|]. split; [reflexivity|]. split; [reflexivity|].
  apply (unpark_then_store_succeeds 1 2 _ _ truckB1 Hr); reflexivity.
Defined.

(** ** New garages *)

(** The first [storeMachine] in a new garage succeeds exactly when the garage
    has a level and the level has enough slots for the machine; the machine
    then gets the first slots of level 0.  Otherwise it fails and the garage
    is unchanged (a truck never fits a garage of one slot per level). *)
Theorem store_in_new_garage (totalLevels slotsEach : Z) (machine : Machine) :
  if (0 <? totalLevels) && (slotsNeeded machine <=? slotsEach)
  then ∃ g', storeMachine (newGarage totalLevels slotsEach) machine
             = Some (true, g') ∧
             machineLocations g' !! identifier machine
             = Some (0, indexRun 0 (slotCount machine))
  else storeMachine (newGarage totalLevels slotsEach) machine
       = Some (false, newGarage totalLevels slotsEach).
Proof.
  rewrite newGarage_clamp.
  pose proof (newGarage_inv (Z.to_nat totalLevels) (Z.to_nat slotsEach)) as Hinv.
  pose proof (slotCount_Z machine) as Hn.
  destruct (slotCount_pos machine) as [n Hn'].
  destruct (storeMachine_spec _ machine (inv_indexed _ _ _ Hinv) eq_refl)
    as [[H1 H2]|(k & j & lvl & (Hk & Hfree & Hminj & Hmink) & Hst)].
  - destruct (Z.ltb_spec 0 totalLevels) as [HL|HL]; [|done].
    destruct (Z.leb_spec (slotsNeeded machine) slotsEach) as [HN|HN]; [|done].
    simpl. destruct (H2 0%nat (newLevel 0 (Z.of_nat (Z.to_nat slotsEach))) 0%nat).
    + unfold newGarage. simpl.
      rewrite Nat2Z.id, list_lookup_fmap, lookup_seq_lt by lia. done.
    + intros i Hi. exists (newSlot 0 (Z.of_nat i)). split; [|done].
      apply newLevel_slot. lia.
  - pose proof Hk as Hk'. apply newGarage_lookup in Hk' as [-> HkL].
    rewrite Hn' in Hfree. pose proof (freeRun_bound _ _ _ Hfree) as Hb.
    rewrite newLevel_length in Hb. rewrite <- Hn' in Hfree.
    destruct (Z.ltb_spec 0 totalLevels) as [HL|HL]; [|lia].
    destruct (Z.leb_spec (slotsNeeded machine) slotsEach) as [HN|HN]; [|lia].
    simpl.
    assert (∀ k0, (k0 < Z.to_nat totalLevels)%nat →
                  freeRun (slotList (newLevel (Z.of_nat k0)
                                       (Z.of_nat (Z.to_nat slotsEach))))
                          0 (slotCount machine)) as Hrun0.
    { intros k0 Hk0 i Hi. exists (newSlot (Z.of_nat k0) (Z.of_nat i)).
      split; [|done]. apply newLevel_slot. lia. }
    assert (k = 0%nat) as ->.
    { destruct k as [|k]; [done|].
      destruct (Hmink 0%nat (newLevel 0 (Z.of_nat (Z.to_nat slotsEach))) 0%nat);
        [lia| |by apply (Hrun0 0%nat); lia].
      unfold newGarage. simpl.
      rewrite Nat2Z.id, list_lookup_fmap, lookup_seq_lt by lia. done. }
    assert (j = 0%nat) as ->.
    { destruct j as [|j]; [done|].
      destruct (Hminj 0%nat); [lia|]. apply (Hrun0 0%nat). lia. }
    eexists. split; [done|]. simpl. by rewrite lookup_insert_eq.
Qed.
